(** * ZnVis visualizer: playback, recording and assembly

    A shallow embedding of [znvis/visualizer/visualizer.py].  Python
    integers are [Z], attribute dictionaries are [gmap]s, and the three
    kinds of control flow of the class (menu actions and posted callables
    on the GUI thread, the playback thread, the recording thread) are the
    events of one interleaving step function over a [World]. *)

From Stdlib Require Import ZArith Lia Bool Ascii String List Permutation Sorted.
From stdpp Require Import base option gmap strings list pretty.
Import ListNotations.

Local Open Scope Z_scope.

(** ** Data model *)

(** A triangle mesh is the sequence of its vertices and triangles;
    open3d's [+] and [+=] on meshes concatenate, and the empty sequence
    is the mesh without vertex. *)
Definition mesh : Type := list Z.

(** The image shown by (and exported from) the window: the geometry that
    is currently registered under each name. *)
Definition image : Type := gmap string mesh.

(** [znvis.Particle] as far as the visualizer reads it: [name],
    [position.shape[0]] and the [mesh_dict] built by
    [construct_mesh_dict].  That attribute is a Python list with one mesh
    per step.  The visualizer indexes it with its counter only, which
    starts at 0 and is never negative; the list is kept here as the
    finite map from the indices [c >= 0] at which [mesh_dict[c]]
    succeeds to the mesh found there, and indexing it anywhere else
    raises the index error of a list. *)
Record Particle : Type := mkParticle {
  name : string;
  position_shape0 : Z;
  mesh_dict : gmap Z mesh
}.

(** Python exceptions that the modelled code can raise. *)
Inductive exn : Type :=
| IndexError
| UnboundLocalError
| AttributeError
| FileExistsError
| ZeroDivisionError
| ValueError.

#[global] Instance exn_eq_dec : EqDecision exn.
Proof. solve_decision. Defined.

(** The attributes of a [Visualizer] object.  [app] and [vis] are the
    window, kept in the [World] below.  [interrupt] is created by
    [_initialize_app] and the two handshake flags by
    [_record_trajectory]; until then the fields hold the value those
    methods give them first. *)
Record Visualizer : Type := mkVisualizer {
  particles : list Particle;
  frame_rate : Z;
  number_of_steps : Z;
  store_run_files : bool;
  video_format : string;
  counter : Z;
  interrupt : Z;
  update_thread_finished : bool;
  save_thread_finished : bool
}.

Definition set_particles (ps : list Particle) (v : Visualizer) : Visualizer :=
  mkVisualizer ps (frame_rate v) (number_of_steps v) (store_run_files v)
    (video_format v) (counter v) (interrupt v) (update_thread_finished v)
    (save_thread_finished v).

Definition set_counter (c : Z) (v : Visualizer) : Visualizer :=
  mkVisualizer (particles v) (frame_rate v) (number_of_steps v)
    (store_run_files v) (video_format v) c (interrupt v)
    (update_thread_finished v) (save_thread_finished v).

Definition set_interrupt (i : Z) (v : Visualizer) : Visualizer :=
  mkVisualizer (particles v) (frame_rate v) (number_of_steps v)
    (store_run_files v) (video_format v) (counter v) i
    (update_thread_finished v) (save_thread_finished v).

Definition set_update_thread_finished (b : bool) (v : Visualizer) : Visualizer :=
  mkVisualizer (particles v) (frame_rate v) (number_of_steps v)
    (store_run_files v) (video_format v) (counter v) (interrupt v) b
    (save_thread_finished v).

Definition set_save_thread_finished (b : bool) (v : Visualizer) : Visualizer :=
  mkVisualizer (particles v) (frame_rate v) (number_of_steps v)
    (store_run_files v) (video_format v) (counter v) (interrupt v)
    (update_thread_finished v) b.

(** [Visualizer.__init__]: stores its arguments; the only expression that
    can raise is [particles[0]] when [number_of_steps] is [None]. *)
Definition __init__ (ps : list Particle) (rate : Z) (steps : option Z)
    (store : bool) (format : string) : exn + Visualizer :=
  match steps with
  | Some n => inr (mkVisualizer ps rate n store format 0 0 true true)
  | None =>
      match ps with
      | [] => inl IndexError
      | p :: _ =>
          inr (mkVisualizer ps rate (position_shape0 p) store format 0 0 true true)
      end
  end.

(** ** Files *)

(** What the visualizer writes next to the script. *)
Inductive file : Type :=
| Png (img : image)
| Ply (m : mesh)
| Video (fourcc : Z) (fps : Z) (frames : list image).

(** The environment of the class outside the Python process.  The
    directory [temp_video] is absent, or holds its entries in the order
    the operating system lists them, each a readable image of the
    window's size; [cwd] holds the files of the working directory.
    [video_writer] is the installed OpenCV: whether
    [cv2.VideoWriter(name, 0, fps, size)] opens a writer for a container
    extension and a frame rate.  With fourcc 0 that depends on the
    build; a writer that did not open ignores [write] and [release],
    raises nothing, and no file appears. *)
Record FileSystem : Type := mkFileSystem {
  temp_video : option (list (string * image));
  cwd : gmap string file;
  video_writer : string -> Z -> bool
}.

(** ** The world *)

(** Callables handed to [post_to_main_thread]. *)
Inductive callable : Type :=
| update_particles_method   (* [self._update_particles], posted by [_run_trajectory] *)
| update_callable
| save_callable.

#[global] Instance callable_eq_dec : EqDecision callable.
Proof. solve_decision. Defined.

(** rich's [Progress] with its single task. *)
Record Progress : Type := mkProgress {
  completed : Z;
  total : Z;
  finished : bool
}.

(** Where a [_run_trajectory] thread stands. *)
Inductive run_pc : Type :=
| RunStart      (* before [self.interrupt = 1] *)
| RunLoop       (* at the [while] test *)
| RunCheck      (* at [if self.interrupt == 0] *)
| RunReset      (* before the final [self.interrupt = 0] *)
| RunDone
| RunCrashed (e : exn).

(** Where a [_record_trajectory] thread stands. *)
Inductive rec_pc : Type :=
| RecStart      (* before the two flags are set *)
| RecCapture    (* at the [while] test, before the first [if] *)
| RecAdvance    (* before the second [if] *)
| RecMovie      (* loop left, before [_create_movie] *)
| RecDone
| RecCrashed (e : exn).

Inductive thread : Type :=
| run_trajectory (pc : run_pc)
| record_trajectory (pc : rec_pc) (progress : Progress).

Record World : Type := mkWorld {
  self : Visualizer;
  scene : gmap string mesh;        (* geometry registered in the window *)
  redraws : nat;                   (* calls of [post_redraw] *)
  main_queue : list callable;      (* posted, not yet run; head runs first *)
  posted : list callable;          (* every callable ever posted, oldest first *)
  threads : list thread;           (* background threads, in start order *)
  disk : FileSystem;
  raised : list exn                (* exceptions raised on the GUI thread, newest first *)
}.

Definition set_self (v : Visualizer) (w : World) : World :=
  mkWorld v (scene w) (redraws w) (main_queue w) (posted w) (threads w)
    (disk w) (raised w).

Definition set_scene (s : gmap string mesh) (w : World) : World :=
  mkWorld (self w) s (redraws w) (main_queue w) (posted w) (threads w)
    (disk w) (raised w).

Definition set_redraws (n : nat) (w : World) : World :=
  mkWorld (self w) (scene w) n (main_queue w) (posted w) (threads w)
    (disk w) (raised w).

Definition set_main_queue (q : list callable) (w : World) : World :=
  mkWorld (self w) (scene w) (redraws w) q (posted w) (threads w)
    (disk w) (raised w).

Definition set_threads (ts : list thread) (w : World) : World :=
  mkWorld (self w) (scene w) (redraws w) (main_queue w) (posted w) ts
    (disk w) (raised w).

Definition set_disk (d : FileSystem) (w : World) : World :=
  mkWorld (self w) (scene w) (redraws w) (main_queue w) (posted w) (threads w)
    d (raised w).

Definition set_raised (es : list exn) (w : World) : World :=
  mkWorld (self w) (scene w) (redraws w) (main_queue w) (posted w) (threads w)
    (disk w) es.

(** [post_to_main_thread(self.vis, f)]. *)
Definition post_to_main_thread (f : callable) (w : World) : World :=
  mkWorld (self w) (scene w) (redraws w) (main_queue w ++ [f])
    (posted w ++ [f]) (threads w) (disk w) (raised w).

(** [threading.Thread(target=...).start()]. *)
Definition start_thread (t : thread) (w : World) : World :=
  set_threads (threads w ++ [t]) w.

(** ** Drawing and stepping *)

(** The loop body of [_draw_particles] for one particle: remove the old
    geometry unless [initial], look the mesh up, add it.  An index out
    of the list's range raises after the removal. *)
Definition draw_particle (initial : bool) (c : Z) (item : Particle)
    (sc : gmap string mesh) : gmap string mesh * option exn :=
  let sc1 := if initial then sc else delete (name item) sc in
  match mesh_dict item !! c with
  | Some m => (<[name item := m]> sc1, None)
  | None => (sc1, Some IndexError)
  end.

Fixpoint draw_loop (initial : bool) (c : Z) (items : list Particle)
    (sc : gmap string mesh) : gmap string mesh * option exn :=
  match items with
  | [] => (sc, None)
  | item :: rest =>
      match draw_particle initial c item sc with
      | (sc1, None) => draw_loop initial c rest sc1
      | (sc1, Some e) => (sc1, Some e)
      end
  end.

(** [_draw_particles]; the [visualizer] argument is always the one window. *)
Definition _draw_particles (initial : bool) (w : World) : World * option exn :=
  let '(sc, r) := draw_loop initial (counter (self w)) (particles (self w)) (scene w) in
  (set_scene sc w, r).

(** [_update_particles(visualizer, step)].  With [step = None] the counter
    advances with wraparound; a given [step] is bound to the parameter and
    never read again. *)
Definition _update_particles (step : option Z) (w : World) : World * option exn :=
  let w1 :=
    match step with
    | None =>
        if (counter (self w) =? number_of_steps (self w) - 1)%Z
        then set_self (set_counter 0 (self w)) w
        else set_self (set_counter (counter (self w) + 1) (self w)) w
    | Some _ => w
    end in
  match _draw_particles false w1 with
  | (w2, None) => (set_redraws (S (redraws w2)) w2, None)
  | (w2, Some e) => (w2, Some e)
  end.

(** ** The assembler *)

(** A name of ASCII characters only.  The regular expression and [int]
    below are those of Python for such names, which are the names the
    visualizer itself writes.  In a [str] with other characters, [\d]
    and [int] also accept the decimal digits of other scripts, which
    this byte-wise model does not know: the statements about the sort
    key assume ASCII names. *)
Fixpoint ascii_name (s : string) : bool :=
  match s with
  | EmptyString => true
  | String a r => (nat_of_ascii a <? 128)%nat && ascii_name r
  end.

Definition is_digit (a : ascii) : bool :=
  (48 <=? nat_of_ascii a)%nat && (nat_of_ascii a <=? 57)%nat.

(** The rest of a greedy [\d+] match. *)
Fixpoint take_digits (s : string) : string :=
  match s with
  | String a r => if is_digit a then String a (take_digits r) else EmptyString
  | EmptyString => EmptyString
  end.

(** [re.search(r"\d+", s)] for an ASCII name [s]: the leftmost maximal
    run of digits, [None] when [s] has no digit. *)
Fixpoint re_search_digits (s : string) : option string :=
  match s with
  | EmptyString => None
  | String a r =>
      if is_digit a then Some (String a (take_digits r)) else re_search_digits r
  end.

Definition digit_value (a : ascii) : Z := Z.of_nat (nat_of_ascii a) - 48.

Fixpoint int_from (acc : Z) (s : string) : Z :=
  match s with
  | EmptyString => acc
  | String a r => int_from (10 * acc + digit_value a) r
  end.

(** [int(digits)] on a run of decimal digits. *)
Definition int (digits : string) : Z := int_from 0 digits.

(** The sort key [lambda s: int(re.search(r"\d+", s).group())]; calling
    [.group()] on [None] raises. *)
Definition image_number (s : string) : exn + Z :=
  match re_search_digits s with
  | Some d => inr (int d)
  | None => inl AttributeError
  end.

(** The keys are computed once per element, left to right. *)
Fixpoint decorate (images : list string) : exn + list (Z * string) :=
  match images with
  | [] => inr []
  | s :: rest =>
      match image_number s with
      | inl e => inl e
      | inr k =>
          match decorate rest with
          | inl e => inl e
          | inr l => inr ((k, s) :: l)
          end
      end
  end.

(** Stable insertion: [x] goes before the first element whose key is not
    smaller. *)
Fixpoint insert_by_key (x : Z * string) (l : list (Z * string)) : list (Z * string) :=
  match l with
  | [] => [x]
  | y :: r => if (fst y <? fst x)%Z then y :: insert_by_key x r else x :: y :: r
  end.

Fixpoint sort_by_key (l : list (Z * string)) : list (Z * string) :=
  match l with
  | [] => []
  | x :: r => insert_by_key x (sort_by_key r)
  end.

(** [sorted(images, key=...)]: a stable sort by key. *)
Definition sorted (images : list string) : exn + list string :=
  match decorate images with
  | inl e => inl e
  | inr l => inr (map snd (sort_by_key l))
  end.

Definition ends_with (suffix s : string) : bool :=
  String.eqb
    (substring (String.length s - String.length suffix) (String.length suffix) s)
    suffix
  && (String.length suffix <=? String.length s)%nat.

(** A name matched by the pattern [*.png]: [*] does not match a leading dot. *)
Definition matches_png (n : string) : bool :=
  ends_with ".png" n && negb (String.prefix "." n).

(** [glob.glob("temp_video/*.png")], in the directory's listing order; a
    missing directory gives the empty list. *)
Definition glob_png (d : FileSystem) : list string :=
  match temp_video d with
  | None => []
  | Some entries =>
      map (fun e => "temp_video/" +:+ fst e)
          (filter (fun e => Is_true (matches_png (fst e))) entries)
  end.

(** [cv2.imread(path)] for a path inside [temp_video]. *)
Definition imread (d : FileSystem) (path : string) : option image :=
  match temp_video d with
  | None => None
  | Some entries =>
      snd <$> List.find (fun e => String.eqb ("temp_video/" +:+ fst e) path) entries
  end.

(** The file name of the video, [f"ZnVis-Video.{self.video_format}"]. *)
Definition video_name (v : Visualizer) : string := "ZnVis-Video." +:+ video_format v.

(** [_create_movie].  [images[0]] raises on an empty list before the
    writer is constructed; every path comes from [glob_png], so every
    [imread] in the loop finds its file.  The video file appears only
    when the writer opens; the directory is removed, unless
    [store_run_files] is set, whether it opened or not. *)
Definition _create_movie (v : Visualizer) (d : FileSystem) : FileSystem * option exn :=
  match sorted (glob_png d) with
  | inl e => (d, Some e)
  | inr [] => (d, Some IndexError)
  | inr (first :: rest) =>
      let video := Video 0 (frame_rate v) (omap (imread d) (first :: rest)) in
      let files :=
        if video_writer d (video_format v) (frame_rate v)
        then <[video_name v := video]> (cwd d)
        else cwd d in
      (mkFileSystem (if store_run_files v then temp_video d else None) files
         (video_writer d), None)
  end.

(** ** Actions of the window *)

(** [_pause_run]. *)
Definition _pause_run (w : World) : World :=
  set_self (set_interrupt 0 (self w)) w.

(** [_continuous_trajectory]: the Play action. *)
Definition _continuous_trajectory (w : World) : World :=
  if (interrupt (self w) =? 1)%Z
  then _pause_run w
  else start_thread (run_trajectory RunStart) w.

(** The [else] branch of the loop in [_export_scene], for the particles
    after the first: [mesh += item.mesh_dict[self.counter]]. *)
Fixpoint mesh_sum_loop (c : Z) (acc : mesh) (rest : list Particle) : mesh * option exn :=
  match rest with
  | [] => (acc, None)
  | item :: r =>
      match mesh_dict item !! c with
      | Some m => mesh_sum_loop c (acc ++ m) r
      | None => (acc, Some IndexError)
      end
  end.

Definition ply_name (c : Z) : string := "My_mesh_" +:+ pretty c +:+ ".ply".
Definition screenshot_name (c : Z) : string := "screenshot_" +:+ pretty c +:+ ".png".
Definition frame_name (c : Z) : string := "frame_" +:+ pretty c +:+ ".png".

Definition write_cwd (n : string) (f : file) (w : World) : World :=
  set_disk (mkFileSystem (temp_video (disk w)) (<[n := f]> (cwd (disk w)))
              (video_writer (disk w))) w.

(** [_export_scene].  [mesh] is bound to the first particle's cached
    object, so every [+=] updates that cache entry in place.
    [o3d.io.write_triangle_mesh] writes nothing, and raises nothing, for
    a mesh without vertex. *)
Definition _export_scene (w : World) : World * option exn :=
  let old_state := interrupt (self w) in
  let w1 := set_self (set_interrupt 0 (self w)) w in
  let c := counter (self w1) in
  match particles (self w1) with
  | [] => (w1, Some UnboundLocalError)
  | p0 :: rest =>
      match mesh_dict p0 !! c with
      | None => (w1, Some IndexError)
      | Some m0 =>
          let '(m, r) := mesh_sum_loop c m0 rest in
          let p0' := mkParticle (name p0) (position_shape0 p0) (<[c := m]> (mesh_dict p0)) in
          let w2 := set_self (set_particles (p0' :: rest) (self w1)) w1 in
          match r with
          | Some e => (w2, Some e)
          | None =>
              let w3 :=
                match m with
                | [] => w2
                | _ :: _ => write_cwd (ply_name c) (Ply m) w2
                end in
              if (old_state =? 1)%Z then (_continuous_trajectory w3, None) else (w3, None)
          end
      end
  end.

(** [_take_screenshot]. *)
Definition _take_screenshot (w : World) : World :=
  write_cwd (screenshot_name (counter (self w))) (Png (scene w)) w.

(** [os.mkdir("temp_video")] followed by the start of the recording
    thread; the progress bar is created by the thread itself. *)
Definition _export_video (w : World) : World * option exn :=
  let w1 := set_self (set_interrupt 0 (self w)) w in
  match temp_video (disk w1) with
  | Some _ => (w1, Some FileExistsError)
  | None =>
      let w2 := set_disk (mkFileSystem (Some []) (cwd (disk w1))
                            (video_writer (disk w1))) w1 in
      (start_thread (record_trajectory RecStart (mkProgress 0 0 false)) w2, None)
  end.

(** ** Posted callables *)

(** Writing a file into a directory listing: an existing entry is
    overwritten in place.  Where the operating system lists a new file
    is not in the code; the model lists it last, and no statement below
    depends on the position. *)
Fixpoint dir_write (n : string) (img : image) (entries : list (string * image))
    : list (string * image) :=
  match entries with
  | [] => [(n, img)]
  | e :: r => if String.eqb (fst e) n then (n, img) :: r else e :: dir_write n img r
  end.

(** [self.vis.export_current_image(f"temp_video/frame_{self.counter}.png")];
    without the directory nothing is written. *)
Definition export_frame (w : World) : World :=
  match temp_video (disk w) with
  | None => w
  | Some entries =>
      set_disk (mkFileSystem
                  (Some (dir_write (frame_name (counter (self w))) (scene w) entries))
                  (cwd (disk w)) (video_writer (disk w))) w
  end.

(** One callable run on the GUI thread. *)
Definition call (f : callable) (w : World) : World * option exn :=
  match f with
  | update_particles_method => _update_particles None w
  | update_callable =>
      match _update_particles None w with
      | (w1, None) => (set_self (set_update_thread_finished true (self w1)) w1, None)
      | (w1, Some e) => (w1, Some e)
      end
  | save_callable =>
      let w1 := export_frame w in
      (set_self (set_save_thread_finished true (self w1)) w1, None)
  end.

(** ** Background threads *)

(** The integers whose inverse is too small for a float: [1 / n] rounds
    to zero from [2 ^ 1075] on (half the smallest subnormal, a tie that
    rounds to even). *)
Definition float_underflow : Z := 2 ^ 1075.
#[global] Opaque float_underflow.

(** [time.sleep(1 / self.frame_rate)]: the division raises for rate 0,
    and the sleep raises for a negative length.  [1 / rate] is a float:
    for a negative rate of magnitude [float_underflow] or more it is
    [-0.0], which the sleep accepts. *)
Definition sleep_frame (v : Visualizer) : option exn :=
  if (frame_rate v =? 0)%Z then Some ZeroDivisionError
  else if (frame_rate v <? 0)%Z then
    if (- float_underflow <? frame_rate v)%Z then Some ValueError else None
  else None.

(** [progress.update(task, advance=1)]. *)
Definition progress_update (p : Progress) : Progress :=
  let c := completed p + 1 in
  mkProgress c (total p) (finished p || (total p <=? c)%Z).

(** One atomic step of [_run_trajectory]. *)
Definition run_step (pc : run_pc) (w : World) : run_pc * World :=
  match pc with
  | RunStart => (RunLoop, set_self (set_interrupt 1 (self w)) w)
  | RunLoop =>
      if (counter (self w) <? number_of_steps (self w))%Z then
        match sleep_frame (self w) with
        | Some e => (RunCrashed e, w)
        | None => (RunCheck, post_to_main_thread update_particles_method w)
        end
      else (RunReset, w)
  | RunCheck =>
      if (interrupt (self w) =? 0)%Z then (RunReset, w) else (RunLoop, w)
  | RunReset => (RunDone, set_self (set_interrupt 0 (self w)) w)
  | RunDone => (RunDone, w)
  | RunCrashed e => (RunCrashed e, w)
  end.

(** One atomic step of [_record_trajectory]. *)
Definition record_step (pc : rec_pc) (p : Progress) (w : World) : rec_pc * Progress * World :=
  match pc with
  | RecStart =>
      let v := set_save_thread_finished true (set_update_thread_finished true (self w)) in
      (RecCapture, mkProgress 0 (number_of_steps v) false, set_self v w)
  | RecCapture =>
      if finished p then (RecMovie, p, w)
      else
        match sleep_frame (self w) with
        | Some e => (RecCrashed e, p, w)
        | None =>
            if save_thread_finished (self w) && update_thread_finished (self w) then
              let w1 := set_self (set_save_thread_finished false (self w)) w in
              (RecAdvance, progress_update p, post_to_main_thread save_callable w1)
            else (RecAdvance, p, w)
        end
  | RecAdvance =>
      if update_thread_finished (self w) then
        let w1 := set_self (set_update_thread_finished false (self w)) w in
        (RecCapture, p, post_to_main_thread update_callable w1)
      else (RecCapture, p, w)
  | RecMovie =>
      match _create_movie (self w) (disk w) with
      | (d, None) => (RecDone, p, set_disk d w)
      | (d, Some e) => (RecCrashed e, p, set_disk d w)
      end
  | RecDone => (RecDone, p, w)
  | RecCrashed e => (RecCrashed e, p, w)
  end.

Definition thread_step (t : thread) (w : World) : thread * World :=
  match t with
  | run_trajectory pc =>
      let '(pc1, w1) := run_step pc w in (run_trajectory pc1, w1)
  | record_trajectory pc p =>
      let '(pc1, p1, w1) := record_step pc p w in (record_trajectory pc1 p1, w1)
  end.

(** ** Interleavings *)

Inductive action : Type := Step | Play | ExportScene | Screenshot | ExportVideo.

Inductive event : Type :=
| Click (a : action)     (* the user picks a menu action; it runs on the GUI thread *)
| Main                   (* the GUI thread runs the oldest posted callable *)
| Background (i : nat).  (* background thread [i] takes one step *)

(** An exception leaving a GUI-thread callback aborts that callback. *)
Definition on_gui (r : World * option exn) : World :=
  match r with
  | (w, None) => w
  | (w, Some e) => set_raised (e :: raised w) w
  end.

Definition click (a : action) (w : World) : World :=
  match a with
  | Step => on_gui (_update_particles None w)
  | Play => _continuous_trajectory w
  | ExportScene => on_gui (_export_scene w)
  | Screenshot => _take_screenshot w
  | ExportVideo => on_gui (_export_video w)
  end.

Definition step (e : event) (w : World) : World :=
  match e with
  | Click a => click a w
  | Main =>
      match main_queue w with
      | [] => w
      | f :: q => on_gui (call f (set_main_queue q w))
      end
  | Background i =>
      match threads w !! i with
      | None => w
      | Some t =>
          let '(t1, w1) := thread_step t w in
          set_threads (<[i := t1]> (threads w1)) w1
      end
  end.

Definition run (schedule : list event) (w : World) : World :=
  fold_left (fun w e => step e w) schedule w.

(** [run_visualization] up to the start of the event loop:
    [_initialize_app] sets [interrupt], [_initialize_particles] draws the
    first frame of caches that [construct_mesh_dict] has filled. *)
Definition run_visualization (v : Visualizer) (d : FileSystem) : World :=
  let w := mkWorld (set_interrupt 0 v) ∅ 0 [] [] [] d [] in
  on_gui (_draw_particles true w).

(** A thread that has not run to its end. *)
Definition active (t : thread) : bool :=
  match t with
  | run_trajectory (RunDone | RunCrashed _) => false
  | record_trajectory (RecDone | RecCrashed _) _ => false
  | _ => true
  end.

Definition is_run_loop (t : thread) : bool :=
  match t with run_trajectory _ => true | _ => false end.

(** The playback loops that are still alive. *)
Definition active_run_loops (w : World) : nat :=
  length (List.filter (fun t => is_run_loop t && active t) (threads w)).

(** ** Vocabulary of the statements *)

(** The Step action without an index, keeping the world only. *)
Definition advance (w : World) : World := fst (_update_particles None w).

(** Every particle caches a mesh for step [c]. *)
Definition cached_at (c : Z) (ps : list Particle) : Prop :=
  Forall (fun item => is_Some (mesh_dict item !! c)) ps.


(** Two particles with three cached steps each. *)
Definition blue : Particle :=
  mkParticle "Blue" 3 (list_to_map [(0, [1]); (1, [2]); (2, [3])]).
Definition orange : Particle :=
  mkParticle "Orange" 3 (list_to_map [(0, [10]); (1, [20]); (2, [30])]).

(** An OpenCV that, with fourcc 0, opens the AVI container at a positive
    frame rate and nothing else. *)
Definition raw_avi (format : string) (rate : Z) : bool :=
  String.eqb format "avi" && (0 <? rate)%Z.

Definition empty_disk : FileSystem := mkFileSystem None ∅ raw_avi.

(** The visualizer of two particles over three steps at 10 frames per
    second, as [__init__] builds it, and its world when the event loop
    starts. *)
Definition two_particles : Visualizer :=
  mkVisualizer [blue; orange] 10 3 false "avi" 0 0 true true.
Definition two_particles_world : World := run_visualization two_particles empty_disk.

(** The counter that a call without index leaves. *)
Definition next_counter (v : Visualizer) : Z :=
  if (counter v =? number_of_steps v - 1)%Z then 0 else counter v + 1.

(** The step count that a constructor call declares. *)
Definition declared_steps (ps : list Particle) (steps : option Z) : option Z :=
  match steps with
  | Some n => Some n
  | None => position_shape0 <$> head ps
  end.

(** The configuration errors of the error taxonomy: no particle, a frame
    rate that is not positive, or a trajectory shorter than the declared
    step count. *)
Definition configuration_error (ps : list Particle) (rate : Z) (steps : option Z) : bool :=
  match ps with [] => true | _ => false end
  || (rate <=? 0)%Z
  || match declared_steps ps steps with
     | Some n => existsb (fun p => (position_shape0 p <? n)%Z) ps
     | None => false
     end.

(** A directory holding one frame under each of the given names. *)
Definition frames_named (names : list string) : FileSystem :=
  mkFileSystem (Some (map (fun n => (n, (∅ : image))) names)) ∅ raw_avi.

(** The image that shows nothing but one mesh with the given tag. *)
Definition tagged (k : Z) : image := {["frame" := [k]]}.


(** The number embedded in a file name or path: the value of its first
    run of digits ([0] for a name without digit, which [sorted] rejects). *)
Definition number (s : string) : Z :=
  match image_number s with
  | inr k => k
  | inl _ => 0
  end.

(** The names in a listing that [*.png] matches. *)
Definition png_names (entries : list (string * image)) : list string :=
  map fst (filter (fun e => Is_true (matches_png (fst e))) entries).

Definition in_temp_video (n : string) : string := "temp_video/" +:+ n.

Definition key_le (a b : Z * string) : Prop := fst a <= fst b.

Definition number_le (a b : string) : Prop := number a <= number b.

Definition is_recording (t : thread) : bool :=
  match t with record_trajectory _ _ => true | _ => false end.

(** The recording threads ever started: one per Export Video action that
    got past [os.mkdir]. *)
Definition recordings (w : World) : nat :=
  length (List.filter is_recording (threads w)).

(** The two-particle visualizer asked to keep its run files. *)
Definition two_particles_keep : Visualizer :=
  mkVisualizer [blue; orange] 10 3 true "avi" 0 0 true true.
Definition two_particles_keep_world : World :=
  run_visualization two_particles_keep empty_disk.

(** One pass of the recording loop: the two flag tests of thread [i]. *)
Definition tick (i : nat) : list event := [Background i; Background i].

(** The schedule in which the GUI thread runs both posted callables
    between two passes: thread [i] starts, makes [n] passes, leaves the
    loop and assembles the video. *)
Definition lockstep (i : nat) (n : nat) : list event :=
  Background i :: concat (replicate n (tick i ++ [Main; Main]))
    ++ [Background i; Background i].

(** Posted callables of one kind that the GUI thread has not run yet. *)
Definition outstanding (f : callable) (w : World) : nat :=
  count_occ callable_eq_dec (main_queue w) f.

(** The positions of the recording threads, in start order. *)
Definition recorder (ts : list thread) : list rec_pc :=
  omap (fun t => match t with
                 | record_trajectory pc _ => Some pc
                 | run_trajectory _ => None
                 end) ts.

(** The handshake between the recording loop and the GUI thread: before
    the flags are set nothing of the loop is queued; afterwards a flag
    that reads true means that no callable of its kind is queued, and at
    most one of each kind is. *)
Definition handshake (pc : rec_pc) (w : World) : Prop :=
  match pc with
  | RecStart =>
      outstanding save_callable w = 0%nat /\ outstanding update_callable w = 0%nat
  | _ =>
      (save_thread_finished (self w) = true -> outstanding save_callable w = 0%nat)
      /\ (update_thread_finished (self w) = true ->
          outstanding update_callable w = 0%nat)
      /\ (outstanding save_callable w <= 1)%nat
      /\ (outstanding update_callable w <= 1)%nat
  end.

Definition handshake_inv (w : World) : Prop :=
  match recorder (threads w) with
  | [] => outstanding save_callable w = 0%nat /\ outstanding update_callable w = 0%nat
  | [pc] => handshake pc w
  | _ => False
  end.

(** The handshake flag that guards the submission of a callable. *)
Definition flag_of (f : callable) (v : Visualizer) : bool :=
  match f with
  | save_callable => save_thread_finished v
  | update_callable => update_thread_finished v
  | update_particles_method => true
  end.

(** The recording threads with their progress bars, in start order. *)
Definition recorder_progress (ts : list thread) : list (rec_pc * Progress) :=
  omap (fun t => match t with
                 | record_trajectory pc p => Some (pc, p)
                 | run_trajectory _ => None
                 end) ts.

(** The captures submitted so far: the [save_callable]s ever posted. *)
Definition saves (w : World) : nat :=
  count_occ callable_eq_dec (posted w) save_callable.

(** The number of captures one recording submits: the total of the
    progress bar, and one when that total is not positive (the bar is
    finished by its first update). *)
Definition frames_wanted (v : Visualizer) : Z := Z.max 1 (number_of_steps v).

(** The progress bar counts the captures: with [n0] captures submitted
    before the recording started, the bar of the one recording thread
    has the number of steps as its total and the captures since then as
    its completed count; it is finished exactly when that count has
    reached [frames_wanted], and the loop is left only with a finished
    bar. *)
Definition progress_inv (n0 : nat) (w : World) : Prop :=
  match recorder_progress (threads w) with
  | [] => saves w = n0
  | [(RecStart, _)] => saves w = n0
  | [(pc, p)] =>
      total p = number_of_steps (self w)
      /\ (n0 <= saves w)%nat
      /\ completed p = Z.of_nat (saves w - n0)
      /\ (if finished p then Z.of_nat (saves w - n0) = frames_wanted (self w)
          else Z.of_nat (saves w - n0) < frames_wanted (self w))
      /\ match pc with
         | RecMovie | RecDone => finished p = true
         | _ => True
         end
  | _ => False
  end.

(** A recording that cannot go on: its thread [j] is inside the loop
    with an unfinished bar [p], [update_thread_finished] reads false and
    no [update_callable] is queued that could set it. *)
Definition stalled (j : nat) (p : Progress) (w : World) : Prop :=
  (threads w !! j = Some (record_trajectory RecCapture p)
   \/ threads w !! j = Some (record_trajectory RecAdvance p))
  /\ (exists pc, recorder (threads w) = [pc])
  /\ finished p = false
  /\ 0 < frame_rate (self w)
  /\ update_thread_finished (self w) = false
  /\ outstanding update_callable w = 0%nat
  /\ is_Some (temp_video (disk w)).







(** * Properties *)

(** ** Frames of the drawing code *)

Lemma draw_loop_cached initial c ps sc :
  cached_at c ps -> snd (draw_loop initial c ps sc) = None.
Proof.
  intros H; revert sc; induction H as [|item ps [m Hm] _ IH]; intros sc; simpl; [done|].
  unfold draw_particle; rewrite Hm; apply IH.
Qed.

Lemma _draw_particles_frame initial w :
  fst (_draw_particles initial w)
  = set_scene (scene (fst (_draw_particles initial w))) w.
Proof.
  unfold _draw_particles.
  destruct (draw_loop initial (counter (self w)) (particles (self w)) (scene w));
    reflexivity.
Qed.

Lemma _update_particles_frame step w :
  let w' := fst (_update_particles step w) in
  w' = mkWorld
         (set_counter (match step with None => next_counter (self w)
                                  | Some _ => counter (self w) end) (self w))
         (scene w') (redraws w') (main_queue w) (posted w) (threads w)
         (disk w) (raised w).
Proof.
  destruct w as [[ps fr S st vf c i uf sf] sc n q po ts d r].
  unfold _update_particles, _draw_particles, next_counter; simpl.
  destruct step; simpl.
  - destruct (draw_loop false c ps sc) as [sc1 [e|]]; reflexivity.
  - destruct (c =? S - 1)%Z; simpl;
      match goal with |- context [draw_loop ?a ?b ?c ?d] =>
        destruct (draw_loop a b c d) as [sc1 [e|]] end; reflexivity.
Qed.

Lemma advance_counter w :
  counter (self (advance w)) = next_counter (self w).
Proof. unfold advance. rewrite (_update_particles_frame None w). reflexivity. Qed.

Lemma advance_number_of_steps w :
  number_of_steps (self (advance w)) = number_of_steps (self w).
Proof. unfold advance. rewrite (_update_particles_frame None w). reflexivity. Qed.

Lemma next_counter_mod v :
  1 <= number_of_steps v -> 0 <= counter v < number_of_steps v ->
  next_counter v = (counter v + 1) mod number_of_steps v.
Proof.
  intros HS Hc. unfold next_counter.
  destruct (Z.eqb_spec (counter v) (number_of_steps v - 1)) as [E|E].
  - replace (counter v + 1) with (number_of_steps v) by lia.
    symmetry; apply Z_mod_same_full.
  - symmetry; apply Z.mod_small; lia.
Qed.

Lemma advance_iter_counter n w :
  1 <= number_of_steps (self w) ->
  0 <= counter (self w) < number_of_steps (self w) ->
  number_of_steps (self (Nat.iter n advance w)) = number_of_steps (self w)
  /\ counter (self (Nat.iter n advance w))
     = (counter (self w) + Z.of_nat n) mod number_of_steps (self w).
Proof.
  intros HS Hc. induction n as [|n [IHS IHc]].
  - simpl. split; [done|]. rewrite Z.add_0_r. symmetry; apply Z.mod_small; lia.
  - change (Nat.iter (S n) advance w) with (advance (Nat.iter n advance w)).
    rewrite advance_number_of_steps, advance_counter. split; [done|].
    rewrite next_counter_mod.
    + rewrite IHS, IHc, Nat2Z.inj_succ.
      rewrite Zplus_mod_idemp_l. f_equal; lia.
    + lia.
    + rewrite IHS, IHc. apply Z.mod_pos_bound; lia.
Qed.

(** ** The step counter *)

(** C3: for [1 <= S] and [0 <= c < S], one advance without index leaves
    [(c + 1) mod S] (so [S - 1] wraps to [0]), the counter stays inside
    [0 .. S-1], and [S] advances from counter [0] come back to [0]. *)
Theorem C3_counter_wraparound (w : World) :
  1 <= number_of_steps (self w) ->
  0 <= counter (self w) < number_of_steps (self w) ->
  counter (self (advance w)) = (counter (self w) + 1) mod number_of_steps (self w)
  /\ (counter (self w) = number_of_steps (self w) - 1 -> counter (self (advance w)) = 0)
  /\ 0 <= counter (self (advance w)) < number_of_steps (self w)
  /\ (forall n, 0 <= counter (self (Nat.iter n advance w)) < number_of_steps (self w))
  /\ (counter (self w) = 0 ->
      counter (self (Nat.iter (Z.to_nat (number_of_steps (self w))) advance w)) = 0).
Proof.
  intros HS Hc.
  assert (E : counter (self (advance w))
              = (counter (self w) + 1) mod number_of_steps (self w))
    by (rewrite advance_counter; apply next_counter_mod; assumption).
  split; [exact E|]. split; [|split; [|split]].
  - intros Hl. rewrite advance_counter. unfold next_counter.
    rewrite Hl, Z.eqb_refl. reflexivity.
  - rewrite E. apply Z.mod_pos_bound; lia.
  - intros n. destruct (advance_iter_counter n w HS Hc) as [_ ->].
    apply Z.mod_pos_bound; lia.
  - intros H0. destruct (advance_iter_counter
                           (Z.to_nat (number_of_steps (self w))) w HS Hc) as [_ ->].
    rewrite H0, Z2Nat.id by lia. simpl. apply Z_mod_same_full.
Qed.

Lemma C3_counter_wraparound_witness :
  counter (self (advance two_particles_world)) = 1
  /\ counter (self (Nat.iter 3 advance two_particles_world)) = 0.
Proof.
  pose proof (C3_counter_wraparound two_particles_world
                ltac:(vm_compute; discriminate)
                ltac:(split; vm_compute; [discriminate | reflexivity])) as H.
  split; [apply H | apply (proj2 (proj2 (proj2 (proj2 H)))); reflexivity].
Defined.

(** ** The Step action with an explicit index *)

Lemma _update_particles_ignores_step k w :
  counter (self (fst (_update_particles (Some k) w))) = counter (self w)
  /\ _update_particles (Some k) w = _update_particles (Some (counter (self w))) w.
Proof.
  split; [|reflexivity].
  rewrite (_update_particles_frame (Some k) w). reflexivity.
Qed.

(** C4: at counter 0 of the two-particle world, the call with explicit
    step 2 leaves the counter at 0 and shows the geometry of step 0; the
    requested step is dropped. *)
Theorem C4_explicit_step_dropped :
  let w := fst (_update_particles (Some 2) two_particles_world) in
  counter (self two_particles_world) = 0
  /\ counter (self w) = 0
  /\ scene w !! "Blue" = Some [1]
  /\ scene w !! "Orange" = Some [10]
  /\ mesh_dict blue !! 2 = Some [3]
  /\ mesh_dict orange !! 2 = Some [30].
Proof. vm_compute. repeat split; reflexivity. Qed.

(** ** The constructor *)

Lemma C9_counterexample :
  ~ (forall ps rate steps store format,
        configuration_error ps rate steps = true ->
        exists e, __init__ ps rate steps store format = inl e).
Proof.
  intros H.
  destruct (H [blue] 0 None false "avi" eq_refl) as [e He].
  discriminate He.
Qed.

(** C9, as the constructor behaves: it checks nothing.  It raises only
    for [particles[0]] on an empty list when no step count is given;
    every other call, whatever the frame rate and the trajectory lengths,
    returns an object that stores the arguments as they are. *)
Theorem C9_constructor_checks_nothing
    (ps : list Particle) (rate : Z) (steps : option Z) (store : bool) (format : string) :
  match __init__ ps rate steps store format with
  | inl e => e = IndexError /\ steps = None /\ ps = []
  | inr v =>
      ~ (steps = None /\ ps = [])
      /\ particles v = ps /\ frame_rate v = rate
      /\ Some (number_of_steps v) = declared_steps ps steps
      /\ store_run_files v = store /\ video_format v = format /\ counter v = 0
  end.
Proof.
  destruct steps as [n|]; simpl.
  - repeat split; try reflexivity. intros [? _]; discriminate.
  - destruct ps as [|p ps]; simpl.
    + repeat split; reflexivity.
    + repeat split; try reflexivity. intros [_ ?]; discriminate.
Qed.

(** A frame rate of zero, or a negative one whose inverse is a negative
    float, passes the constructor and stops the playback thread at its
    first sleep. *)
Lemma run_step_bad_frame_rate w :
  - float_underflow < frame_rate (self w) <= 0 ->
  counter (self w) < number_of_steps (self w) ->
  exists e, run_step RunLoop w = (RunCrashed e, w).
Proof.
  intros Hr Hc. unfold run_step, sleep_frame.
  destruct (Z.ltb_spec (counter (self w)) (number_of_steps (self w))); [|lia].
  destruct (Z.eqb_spec (frame_rate (self w)) 0); [eauto|].
  destruct (Z.ltb_spec (frame_rate (self w)) 0); [|lia].
  destruct (Z.ltb_spec (- float_underflow) (frame_rate (self w))); [eauto|lia].
Qed.

(** ** Assembly of an empty capture *)

Lemma sorted_nil : sorted [] = inr [].
Proof. reflexivity. Qed.

(** C7: with no frame image in the temporary directory, [_create_movie]
    raises at [images[0]], before the video writer is opened: the file
    system is left as it was, so no video file exists afterwards. *)
Theorem C7_empty_capture_fails (v : Visualizer) (d : FileSystem) :
  glob_png d = [] ->
  _create_movie v d = (d, Some IndexError)
  /\ cwd (fst (_create_movie v d)) !! video_name v = cwd d !! video_name v.
Proof.
  intros H. unfold _create_movie. rewrite H, sorted_nil. split; reflexivity.
Qed.

Lemma C7_empty_capture_fails_witness :
  _create_movie two_particles (frames_named []) = (frames_named [], Some IndexError)
  /\ cwd (fst (_create_movie two_particles (frames_named []))) !! video_name two_particles
     = None.
Proof.
  destruct (C7_empty_capture_fails two_particles (frames_named []) eq_refl) as [H1 H2].
  split; [exact H1|]. rewrite H2. reflexivity.
Defined.

(** ** Sorting the frames *)

Section Sorting.

Lemma insert_by_key_perm x l : Permutation (insert_by_key x l) (x :: l).
Proof.
  induction l as [|y r IH]; simpl; [reflexivity|].
  destruct (fst y <? fst x)%Z; [|reflexivity].
  rewrite IH. apply perm_swap.
Qed.

Lemma sort_by_key_perm l : Permutation (sort_by_key l) l.
Proof.
  induction l as [|x r IH]; simpl; [reflexivity|].
  rewrite insert_by_key_perm. now constructor.
Qed.

Lemma insert_by_key_sorted x l :
  StronglySorted key_le l -> StronglySorted key_le (insert_by_key x l).
Proof.
  induction 1 as [|y r Hs IH Hall]; simpl; [repeat constructor|].
  destruct (Z.ltb_spec (fst y) (fst x)) as [Hlt|Hge].
  - constructor; [exact IH|].
    rewrite insert_by_key_perm. constructor; [unfold key_le; lia | exact Hall].
  - constructor; [constructor; assumption|].
    constructor; [exact Hge|].
    eapply List.Forall_impl; [|exact Hall]. unfold key_le; intros; simpl in *; lia.
Qed.

Lemma sort_by_key_sorted l : StronglySorted key_le (sort_by_key l).
Proof.
  induction l as [|x r IH]; simpl; [constructor|].
  now apply insert_by_key_sorted.
Qed.

Lemma decorate_numbered images :
  Forall (fun s => is_Some (re_search_digits s)) images ->
  decorate images = inr (map (fun s => (number s, s)) images).
Proof.
  induction 1 as [|s rest [ds Hs] _ IH]; simpl; [reflexivity|].
  unfold number, image_number. rewrite Hs, IH. reflexivity.
Qed.

Lemma numbered_sorted (l : list (Z * string)) :
  Forall (fun p => fst p = number (snd p)) l ->
  StronglySorted key_le l -> StronglySorted number_le (map snd l).
Proof.
  intros Hn Hs. induction Hs as [|p r Hs IH Hall]; simpl; [constructor|].
  inversion Hn as [|? ? Hp Hr]; subst.
  constructor; [now apply IH|].
  rewrite Forall_map. rewrite Forall_forall in Hall, Hr |- *.
  intros q Hq. unfold number_le. rewrite <- Hp, <- (Hr q Hq).
  exact (Hall q Hq).
Qed.

(** What [sorted] returns for names that all carry a number. *)
Lemma sorted_numbered images :
  Forall (fun s => is_Some (re_search_digits s)) images ->
  exists order,
    sorted images = inr order
    /\ Permutation order images
    /\ StronglySorted number_le order.
Proof.
  intros H. unfold sorted. rewrite (decorate_numbered _ H).
  set (l := map (fun s => (number s, s)) images).
  exists (map snd (sort_by_key l)). split; [reflexivity|]. split.
  - rewrite (sort_by_key_perm l). unfold l. rewrite map_map. simpl.
    rewrite map_id. reflexivity.
  - apply numbered_sorted; [|apply sort_by_key_sorted].
    rewrite (sort_by_key_perm l). unfold l. rewrite Forall_map.
    apply Forall_forall; intros; reflexivity.
Qed.

End Sorting.

Lemma number_in_temp_video n : number (in_temp_video n) = number n.
Proof. reflexivity. Qed.

Lemma re_search_in_temp_video n :
  re_search_digits (in_temp_video n) = re_search_digits n.
Proof. reflexivity. Qed.

Lemma glob_png_names d entries :
  temp_video d = Some entries -> glob_png d = map in_temp_video (png_names entries).
Proof.
  intros H. unfold glob_png, png_names. rewrite H, map_map. reflexivity.
Qed.

Lemma in_temp_video_inj : Inj (=) (=) in_temp_video.
Proof. intros a b H. unfold in_temp_video in H. by simplify_eq/=. Qed.

Lemma perm_map_in_temp_video order names :
  Permutation order (map in_temp_video names) ->
  exists l, order = map in_temp_video l /\ Permutation l names.
Proof.
  intros H.
  destruct (Permutation_map_inv _ _ H) as (l & -> & Hp).
  exists l. split; [reflexivity | now symmetry].
Qed.

Lemma sorted_names_of_paths l :
  StronglySorted number_le (map in_temp_video l) -> StronglySorted number_le l.
Proof.
  induction l as [|n l IH]; simpl; intros H; [constructor|].
  inversion H as [|? ? Hs Hall]; subst. constructor; [now apply IH|].
  rewrite Forall_map in Hall. exact Hall.
Qed.

Lemma find_entry (entries : list (string * image)) n img :
  NoDup (map fst entries) -> In (n, img) entries ->
  List.find (fun e => String.eqb (in_temp_video (fst e)) (in_temp_video n)) entries
  = Some (n, img).
Proof.
  induction entries as [|e r IH]; intros Hnd Hin; [destruct Hin|].
  simpl in Hnd, Hin. cbn [List.find].
  apply NoDup_cons in Hnd as [Hnot Hnd].
  destruct (String.eqb_spec (in_temp_video (fst e)) (in_temp_video n)) as [E|E].
  - apply in_temp_video_inj in E. destruct Hin as [->|Hin]; [done|].
    exfalso. apply Hnot. rewrite E. apply list_elem_of_In.
    apply (in_map fst) in Hin. exact Hin.
  - destruct Hin as [->|Hin]; [done|]. by apply IH.
Qed.

Lemma imread_entry d entries n img :
  temp_video d = Some entries -> NoDup (map fst entries) -> In (n, img) entries ->
  imread d (in_temp_video n) = Some img.
Proof.
  intros Hd Hnd Hin. unfold imread. rewrite Hd.
  change (fun e : string * image => String.eqb ("temp_video/" +:+ fst e) (in_temp_video n))
    with (fun e : string * image => String.eqb (in_temp_video (fst e)) (in_temp_video n)).
  by rewrite (find_entry _ _ _ Hnd Hin).
Qed.

Lemma imread_entries d entries (l : list (string * image)) :
  temp_video d = Some entries -> NoDup (map fst entries) ->
  Forall (fun e => In e entries) l ->
  omap (imread d) (map (fun e => in_temp_video (fst e)) l) = map snd l.
Proof.
  intros Hd Hnd. induction 1 as [|[n img] l Hin _ IH]; [done|].
  change (omap (imread d) (map (fun e => in_temp_video (fst e)) ((n, img) :: l)))
    with (match imread d (in_temp_video n) with
          | Some y => y :: omap (imread d) (map (fun e => in_temp_video (fst e)) l)
          | None => omap (imread d) (map (fun e => in_temp_video (fst e)) l)
          end).
  by rewrite (imread_entry _ _ _ _ Hd Hnd Hin), IH.
Qed.

Lemma _create_movie_sorted v d first rest :
  sorted (glob_png d) = inr (first :: rest) ->
  _create_movie v d
  = (mkFileSystem (if store_run_files v then temp_video d else None)
       (if video_writer d (video_format v) (frame_rate v)
        then <[video_name v := Video 0 (frame_rate v) (omap (imread d) (first :: rest))]>
               (cwd d)
        else cwd d)
       (video_writer d), None).
Proof. intros H. unfold _create_movie. by rewrite H. Qed.

(** What [_create_movie] does with a directory of distinct names whose
    png names all carry a number. *)
Lemma _create_movie_entries v d entries :
  temp_video d = Some entries ->
  NoDup (map fst entries) ->
  Forall (fun n => is_Some (re_search_digits n)) (png_names entries) ->
  exists frames,
    Permutation frames (filter (fun e => Is_true (matches_png (fst e))) entries)
    /\ StronglySorted number_le (map fst frames)
    /\ sorted (glob_png d) = inr (map in_temp_video (map fst frames))
    /\ (frames <> [] ->
        _create_movie v d
        = (mkFileSystem (if store_run_files v then Some entries else None)
             (if video_writer d (video_format v) (frame_rate v)
              then <[video_name v := Video 0 (frame_rate v) (map snd frames)]> (cwd d)
              else cwd d)
             (video_writer d), None)).
Proof.
  intros Hd Hnd Hnum.
  assert (Hpaths : Forall (fun s => is_Some (re_search_digits s)) (glob_png d)).
  { rewrite (glob_png_names _ _ Hd), Forall_map.
    eapply List.Forall_impl; [|exact Hnum]. intros n Hn.
    rewrite re_search_in_temp_video. exact Hn. }
  destruct (sorted_numbered _ Hpaths) as (order & Hsorted & Hperm & Hord).
  unfold glob_png in Hperm. rewrite Hd in Hperm.
  destruct (Permutation_map_inv _ _ Hperm) as (frames & -> & Hp).
  assert (Hmm : map (fun e : string * image => "temp_video/" +:+ fst e) frames
                = map in_temp_video (map fst frames)) by (by rewrite map_map).
  exists frames. split; [by symmetry|]. split; [|split].
  - apply sorted_names_of_paths. by rewrite <- Hmm.
  - by rewrite Hsorted, Hmm.
  - intros Hne. destruct frames as [|f fr]; [done|].
    rewrite (_create_movie_sorted v d _ _ Hsorted), Hd.
    change (omap (imread d) _)
      with (omap (imread d) (map (fun e => in_temp_video (fst e)) (f :: fr))).
    rewrite (imread_entries d entries); [done..|].
    apply Forall_forall. intros e He. apply list_elem_of_In.
    rewrite <- Hp in He. apply list_elem_of_filter in He. tauto.
Qed.



(** ** Frames of the step function *)

Ltac open_world w :=
  destruct w as [[ps fr S st vf c i uf sf] sc n q po ts d r].
Ltac crush := repeat (first [ progress simpl | case_match; simplify_eq/= ]); try done.

Lemma step_store e w : store_run_files (self (step e w)) = store_run_files (self w).
Proof.
  open_world w. destruct e as [a| |j].
  - destruct a;
      unfold step, click, on_gui, _update_particles, _draw_particles, _export_scene,
        _export_video, _continuous_trajectory, _pause_run, start_thread; crush.
  - unfold step, on_gui, call, export_frame, _update_particles, _draw_particles; crush.
  - unfold step, thread_step, run_step, record_step; crush.
Qed.

Lemma run_cons e s w : run (e :: s) w = run s (step e w).
Proof. reflexivity. Qed.

Lemma run_app s1 s2 w : run (s1 ++ s2) w = run s2 (run s1 w).
Proof. unfold run. apply fold_left_app. Qed.

Lemma run_store sched w :
  store_run_files (self (run sched w)) = store_run_files (self w).
Proof.
  revert w; induction sched as [|e s IH]; intros w; [done|].
  rewrite run_cons, IH. apply step_store.
Qed.

Lemma _create_movie_keeps_dir v d :
  store_run_files v = true -> is_Some (temp_video d) ->
  is_Some (temp_video (fst (_create_movie v d))).
Proof.
  intros Hs Hd. unfold _create_movie.
  destruct (sorted (glob_png d)) as [e|[|first rest]]; simpl; try done.
  rewrite Hs. done.
Qed.

Lemma filter_insert_same_kind (f : thread -> bool) ts (j : nat) t t1 :
  ts !! j = Some t -> f t1 = f t ->
  length (List.filter f (<[j:=t1]> ts)) = length (List.filter f ts).
Proof.
  revert j; induction ts as [|a ts IH]; intros [|j] H Hf; simplify_eq/=.
  - rewrite Hf. by destruct (f t).
  - destruct (f a); simpl; by rewrite (IH j).
Qed.

Lemma filter_app_run ts pc :
  length (List.filter is_recording (ts ++ [run_trajectory pc]))
  = length (List.filter is_recording ts).
Proof. rewrite List.filter_app, length_app. simpl. lia. Qed.

Lemma step_keeps_dir e w :
  store_run_files (self w) = true -> is_Some (temp_video (disk w)) ->
  is_Some (temp_video (disk (step e w))) /\ recordings (step e w) = recordings w.
Proof.
  open_world w. simpl. intros -> Hd. destruct e as [a| |j].
  - destruct a;
      unfold recordings, step, click, on_gui, _update_particles, _draw_particles,
        _export_scene, _export_video, _continuous_trajectory, _pause_run, start_thread;
      crush; try (split; [done|apply filter_app_run]).
    all: destruct Hd; congruence.
  - unfold step, on_gui, call, export_frame, _update_particles, _draw_particles; crush.
  - unfold recordings, step, thread_step, run_step, record_step; crush;
      try (split; [done| eapply filter_insert_same_kind; [eassumption|done]]).
    all: match goal with H : _create_movie ?v ?d = _ |- _ =>
       pose proof (_create_movie_keeps_dir v d eq_refl Hd) as HH; rewrite H in HH end.
    all: split; [exact HH | eapply filter_insert_same_kind; [eassumption|done]].
Qed.

Lemma run_keeps_dir sched w :
  store_run_files (self w) = true -> is_Some (temp_video (disk w)) ->
  is_Some (temp_video (disk (run sched w))) /\ recordings (run sched w) = recordings w.
Proof.
  revert w; induction sched as [|e s IH]; intros w Hs Hd; [done|].
  destruct (step_keeps_dir e w Hs Hd) as [Hd1 Hr1].
  destruct (IH (step e w)) as [Hd2 Hr2]; [by rewrite step_store|done|].
  rewrite run_cons. split; [done|]. by rewrite Hr2.
Qed.

Lemma step_recordings e w :
  recordings (step e w) = recordings w
  \/ (recordings (step e w) = S (recordings w)
      /\ is_Some (temp_video (disk (step e w)))).
Proof.
  open_world w. destruct e as [a| |j].
  - destruct a;
      unfold recordings, step, click, on_gui, _update_particles, _draw_particles,
        _export_scene, _export_video, _continuous_trajectory, _pause_run, start_thread;
      crush; try (left; done); try (left; apply filter_app_run).
    right. rewrite List.filter_app, length_app. simpl. split; [lia|done].
  - left. unfold step, on_gui, call, export_frame, _update_particles, _draw_particles; crush.
  - left. unfold recordings, step, thread_step, run_step, record_step; crush;
      (eapply filter_insert_same_kind; [eassumption|done]).
Qed.

Lemma run_recordings_once sched w :
  store_run_files (self w) = true -> recordings w = 0%nat ->
  (recordings (run sched w) <= 1)%nat.
Proof.
  revert w; induction sched as [|e s IH]; intros w Hs H0; [simpl; lia|].
  rewrite run_cons. destruct (step_recordings e w) as [E|[E Hd]].
  - apply IH; [by rewrite step_store | congruence].
  - destruct (run_keeps_dir s (step e w)) as [_ Hr]; [by rewrite step_store|done|].
    rewrite Hr. lia.
Qed.

(** ** Export Video and the temporary directory *)

(** C10: when [temp_video] exists, Export Video raises the file-exists
    error at [os.mkdir], starts no thread and leaves the disk alone.  With
    [store_run_files] set nothing ever removes the directory: once it
    exists it exists after every further schedule and no new recording
    starts, so from a state without recording at most one Export Video
    action gets past [os.mkdir]; a first action that does creates the
    directory, and every later one raises. *)
Theorem C10_export_video_at_most_once (w : World) (sched : list event) :
  (is_Some (temp_video (disk w)) ->
   _export_video w = (set_self (set_interrupt 0 (self w)) w, Some FileExistsError)
   /\ threads (step (Click ExportVideo) w) = threads w
   /\ raised (step (Click ExportVideo) w) = FileExistsError :: raised w
   /\ disk (step (Click ExportVideo) w) = disk w)
  /\ (store_run_files (self w) = true -> is_Some (temp_video (disk w)) ->
      is_Some (temp_video (disk (run sched w)))
      /\ recordings (run sched w) = recordings w)
  /\ (store_run_files (self w) = true -> recordings w = 0%nat ->
      (recordings (run sched w) <= 1)%nat)
  /\ (store_run_files (self w) = true -> temp_video (disk w) = None ->
      let w1 := run sched (step (Click ExportVideo) w) in
      recordings w1 = S (recordings w)
      /\ raised (step (Click ExportVideo) w1) = FileExistsError :: raised w1
      /\ threads (step (Click ExportVideo) w1) = threads w1).
Proof.
  assert (Hfail : forall w0, is_Some (temp_video (disk w0)) ->
            _export_video w0
            = (set_self (set_interrupt 0 (self w0)) w0, Some FileExistsError)
            /\ threads (step (Click ExportVideo) w0) = threads w0
            /\ raised (step (Click ExportVideo) w0) = FileExistsError :: raised w0
            /\ disk (step (Click ExportVideo) w0) = disk w0).
  { intros w0 [entries Hd]. unfold step, click, _export_video. simpl.
    rewrite Hd. repeat split; reflexivity. }
  split; [apply Hfail|]. split; [apply run_keeps_dir|].
  split; [apply run_recordings_once|].
  intros Hs Hnone w1.
  assert (H1 : recordings (step (Click ExportVideo) w) = S (recordings w)
               /\ is_Some (temp_video (disk (step (Click ExportVideo) w)))).
  { unfold recordings, step, click, _export_video. simpl. rewrite Hnone. simpl.
    rewrite List.filter_app, length_app. simpl. split; [lia|done]. }
  destruct H1 as [Hr Hd].
  destruct (run_keeps_dir sched (step (Click ExportVideo) w)) as [Hd1 Hr1];
    [by rewrite step_store | done |].
  split; [unfold w1; congruence|].
  destruct (Hfail w1 Hd1) as (_ & Ht & Hx & _). split; assumption.
Qed.

Lemma C10_export_video_at_most_once_witness :
  let w1 := run (lockstep 0 3) (step (Click ExportVideo) two_particles_keep_world) in
  threads w1 = [record_trajectory RecDone (mkProgress 3 3 true)]
  /\ recordings w1 = 1%nat
  /\ raised (step (Click ExportVideo) w1) = [FileExistsError]
  /\ threads (step (Click ExportVideo) w1) = threads w1.
Proof.
  destruct (C10_export_video_at_most_once two_particles_keep_world (lockstep 0 3))
    as (_ & _ & _ & H).
  destruct (H eq_refl eq_refl) as (Hr & Hx & Ht).
  split; [vm_compute; reflexivity|]. split; [exact Hr|]. split; [|exact Ht].
  rewrite Hx. vm_compute. reflexivity.
Defined.

(** ** The handshake of the recording loop *)

Lemma recorder_app_run ts pc : recorder (ts ++ [run_trajectory pc]) = recorder ts.
Proof. unfold recorder. rewrite omap_app. simpl. apply app_nil_r. Qed.

Lemma recorder_app_record ts pc p :
  recorder (ts ++ [record_trajectory pc p]) = recorder ts ++ [pc].
Proof. unfold recorder. rewrite omap_app. reflexivity. Qed.

Lemma recorder_insert_run ts (j : nat) pc pc1 :
  ts !! j = Some (run_trajectory pc) ->
  recorder (<[j:=run_trajectory pc1]> ts) = recorder ts.
Proof.
  revert j; induction ts as [|a ts IH]; intros [|j] H; simplify_eq/=; [done|].
  unfold recorder in *. simpl. by rewrite (IH j).
Qed.

Lemma recorder_nil_lookup ts (j : nat) pc p :
  recorder ts = [] -> ts !! j = Some (record_trajectory pc p) -> False.
Proof.
  unfold recorder.
  revert j; induction ts as [|a ts IH]; intros [|j] Hr H; simplify_eq/=.
  destruct a; simplify_eq/=. by apply (IH j).
Qed.

Lemma recorder_insert_record ts (j : nat) pc p pc0 pc1 p1 :
  ts !! j = Some (record_trajectory pc p) -> recorder ts = [pc0] ->
  pc = pc0 /\ recorder (<[j:=record_trajectory pc1 p1]> ts) = [pc1].
Proof.
  revert j; induction ts as [|a ts IH]; intros [|j] H Hr; simplify_eq/=.
  - unfold recorder in *. simpl in *. split; congruence.
  - unfold recorder in *. simpl in *. destruct a as [rpc|rpc rp]; simpl in *.
    + by apply (IH j).
    + exfalso. eapply (recorder_nil_lookup ts j); [|exact H].
      unfold recorder. congruence.
Qed.

Lemma handshake_inv_ext w w' :
  recorder (threads w') = recorder (threads w) ->
  main_queue w' = main_queue w ->
  save_thread_finished (self w') = save_thread_finished (self w) ->
  update_thread_finished (self w') = update_thread_finished (self w) ->
  handshake_inv w -> handshake_inv w'.
Proof.
  unfold handshake_inv, handshake, outstanding. intros -> -> -> ->. done.
Qed.

Lemma click_handshake a w :
  a <> ExportVideo -> handshake_inv w -> handshake_inv (step (Click a) w).
Proof.
  intros Ha. apply handshake_inv_ext; open_world w; destruct a; try done;
    unfold step, click, on_gui, _update_particles, _draw_particles, _export_scene,
      _continuous_trajectory, _pause_run, start_thread, _take_screenshot, write_cwd;
    crush; apply recorder_app_run.
Qed.

Lemma count_occ_snoc (q : list callable) f g :
  count_occ callable_eq_dec (q ++ [f]) g
  = (count_occ callable_eq_dec q g + if callable_eq_dec f g then 1 else 0)%nat.
Proof. rewrite count_occ_app. simpl. destruct (callable_eq_dec f g); lia. Qed.

Lemma main_view w :
  let w' := step Main w in
  threads w' = threads w /\ posted w' = posted w
  /\ match main_queue w with
     | [] => w' = w
     | f :: q =>
         main_queue w' = q
         /\ match f with
            | save_callable =>
                save_thread_finished (self w') = true
                /\ update_thread_finished (self w') = update_thread_finished (self w)
            | update_callable =>
                save_thread_finished (self w') = save_thread_finished (self w)
                /\ (update_thread_finished (self w') = true
                    \/ update_thread_finished (self w')
                       = update_thread_finished (self w))
            | update_particles_method =>
                save_thread_finished (self w') = save_thread_finished (self w)
                /\ update_thread_finished (self w') = update_thread_finished (self w)
            end
     end.
Proof.
  open_world w. destruct q as [|f q]; [done|].
  destruct f; unfold step, on_gui, call, export_frame, _update_particles, _draw_particles;
    crush; auto 10.
Qed.

Lemma background_view j w :
  let w' := step (Background j) w in
  match threads w !! j with
  | None => w' = w
  | Some (run_trajectory pc) =>
      (exists pc1, threads w' = <[j:=run_trajectory pc1]> (threads w))
      /\ save_thread_finished (self w') = save_thread_finished (self w)
      /\ update_thread_finished (self w') = update_thread_finished (self w)
      /\ (main_queue w' = main_queue w /\ posted w' = posted w
          \/ main_queue w' = main_queue w ++ [update_particles_method]
             /\ posted w' = posted w ++ [update_particles_method])
  | Some (record_trajectory pc p) =>
      exists pc1 p1,
        threads w' = <[j:=record_trajectory pc1 p1]> (threads w)
        /\ match pc with
           | RecStart =>
               pc1 = RecCapture
               /\ save_thread_finished (self w') = true
               /\ update_thread_finished (self w') = true
               /\ main_queue w' = main_queue w /\ posted w' = posted w
           | RecCapture =>
               pc1 <> RecStart /\
               update_thread_finished (self w') = update_thread_finished (self w)
               /\ (save_thread_finished (self w') = save_thread_finished (self w)
                   /\ main_queue w' = main_queue w /\ posted w' = posted w
                   \/ save_thread_finished (self w) = true
                      /\ update_thread_finished (self w) = true
                      /\ save_thread_finished (self w') = false
                      /\ main_queue w' = main_queue w ++ [save_callable]
                      /\ posted w' = posted w ++ [save_callable])
           | RecAdvance =>
               pc1 <> RecStart /\
               save_thread_finished (self w') = save_thread_finished (self w)
               /\ (update_thread_finished (self w') = update_thread_finished (self w)
                   /\ main_queue w' = main_queue w /\ posted w' = posted w
                   \/ update_thread_finished (self w) = true
                      /\ update_thread_finished (self w') = false
                      /\ main_queue w' = main_queue w ++ [update_callable]
                      /\ posted w' = posted w ++ [update_callable])
           | _ =>
               pc1 <> RecStart
               /\ save_thread_finished (self w') = save_thread_finished (self w)
               /\ update_thread_finished (self w') = update_thread_finished (self w)
               /\ main_queue w' = main_queue w /\ posted w' = posted w
           end
  end.
Proof.
  open_world w. unfold step. simpl. destruct (ts !! j) as [[pc|pc p]|]; [| |done].
  - destruct pc; unfold thread_step, run_step; crush; eauto 10.
  - destruct pc; unfold thread_step, record_step; crush;
      (do 2 eexists; split; [reflexivity|]); simpl; try done;
      try (split; [done|]); auto 10.
    apply andb_true_iff in H2 as [-> ->]. auto 10.
Qed.

Lemma main_handshake w : handshake_inv w -> handshake_inv (step Main w).
Proof.
  destruct (main_view w) as (Ht & _ & Hq). revert Ht Hq.
  generalize (step Main w) as w'. intros w' Ht Hq.
  unfold handshake_inv. rewrite Ht.
  destruct (main_queue w) as [|f q] eqn:E; [by rewrite Hq|].
  destruct Hq as [Hq Hf]. unfold handshake, outstanding. rewrite Hq, E.
  destruct (recorder (threads w)) as [|pc [|]]; [| |done].
  - destruct f; simpl; intuition (try discriminate; try lia).
  - destruct f, pc; simpl; destruct Hf as [Hs Hu]; rewrite ?Hs;
      try (destruct Hu as [Hu|Hu]; rewrite Hu); try rewrite Hu;
      intuition (try discriminate; try lia).
Qed.

Lemma handshake_not_start pc pc1 w w' :
  pc <> RecStart -> pc1 <> RecStart ->
  save_thread_finished (self w') = save_thread_finished (self w) ->
  update_thread_finished (self w') = update_thread_finished (self w) ->
  main_queue w' = main_queue w ->
  handshake pc w -> handshake pc1 w'.
Proof.
  intros Hpc Hpc1 Hs Hu Hq. unfold handshake, outstanding. rewrite Hs, Hu, Hq.
  destruct pc, pc1; done.
Qed.

Lemma background_handshake j w :
  handshake_inv w -> handshake_inv (step (Background j) w).
Proof.
  pose proof (background_view j w) as Hv. revert Hv.
  generalize (step (Background j) w) as w'. intros w' Hv Hinv.
  destruct (threads w !! j) as [[pc|pc p]|] eqn:Hj; [| |simpl in Hv; subst w'; exact Hinv].
  - destruct Hv as ([pc1 Ht] & Hs & Hu & Hq).
    unfold handshake_inv in *. rewrite Ht, (recorder_insert_run _ _ _ _ Hj).
    unfold handshake, outstanding in *. rewrite Hs, Hu.
    destruct Hq as [[-> _]|[-> _]]; [done|].
    rewrite !count_occ_snoc. simpl. rewrite !Nat.add_0_r. done.
  - destruct Hv as (pc1 & p1 & Ht & Hv).
    unfold handshake_inv in *. rewrite Ht.
    destruct (recorder (threads w)) as [|pc0 [|]] eqn:Hr; [| |done].
    + destruct (recorder_nil_lookup _ _ _ _ Hr Hj).
    + destruct (recorder_insert_record _ _ _ _ _ pc1 p1 Hj Hr) as [-> ->].
      destruct pc0.
      * destruct Hv as (-> & Hs & Hu & Hq & _).
        unfold handshake, outstanding in *. rewrite Hq. intuition lia.
      * destruct Hv as (Hpc1 & Hu & [(Hs & Hq & _)|(Hs & Hu1 & Hs1 & Hq & _)]).
        { by apply (handshake_not_start RecCapture pc1 w w'). }
        unfold handshake, outstanding in *. rewrite Hs1, Hu, Hq.
        rewrite !count_occ_snoc. simpl. destruct pc1; [done|..];
          intuition (try discriminate; try lia).
      * destruct Hv as (Hpc1 & Hs & [(Hu & Hq & _)|(Hu & Hu1 & Hq & _)]).
        { by apply (handshake_not_start RecAdvance pc1 w w'). }
        unfold handshake, outstanding in *. rewrite Hs, Hu1, Hq.
        rewrite !count_occ_snoc. simpl. destruct pc1; [done|..];
          intuition (try discriminate; try lia).
      * destruct Hv as (Hpc1 & Hs & Hu & Hq & _).
        by apply (handshake_not_start RecMovie pc1 w w').
      * destruct Hv as (Hpc1 & Hs & Hu & Hq & _).
        by apply (handshake_not_start RecDone pc1 w w').
      * destruct Hv as (Hpc1 & Hs & Hu & Hq & _).
        by apply (handshake_not_start (RecCrashed e) pc1 w w').
Qed.

Lemma handshake_step e w :
  e <> Click ExportVideo -> handshake_inv w -> handshake_inv (step e w).
Proof.
  destruct e as [a| |j]; intros He.
  - apply click_handshake. congruence.
  - apply main_handshake.
  - apply background_handshake.
Qed.

Lemma handshake_run sched w :
  Forall (fun e => e <> Click ExportVideo) sched ->
  handshake_inv w -> handshake_inv (run sched w).
Proof.
  intros H; revert w; induction H as [|e s He _ IH]; intros w Hw; [done|].
  rewrite run_cons. apply IH. by apply handshake_step.
Qed.

Lemma recorder_no_recordings ts :
  length (List.filter is_recording ts) = 0%nat -> recorder ts = [].
Proof.
  unfold recorder. induction ts as [|[pc|pc p] ts IH]; simpl; intros H; [done| |done].
  by apply IH.
Qed.

Lemma handshake_export w :
  recordings w = 0%nat ->
  outstanding save_callable w = 0%nat -> outstanding update_callable w = 0%nat ->
  handshake_inv (step (Click ExportVideo) w).
Proof.
  intros Hr Hs Hu. apply recorder_no_recordings in Hr.
  unfold handshake_inv, handshake, outstanding in *.
  unfold step, click, _export_video. simpl.
  destruct (temp_video (disk w)); simpl.
  - by rewrite Hr.
  - rewrite recorder_app_record, Hr. done.
Qed.

Lemma click_posted a w : posted (step (Click a) w) = posted w.
Proof.
  open_world w. destruct a;
    unfold step, click, on_gui, _update_particles, _draw_particles, _export_scene,
      _export_video, _continuous_trajectory, _pause_run, start_thread,
      _take_screenshot, write_cwd; crush.
Qed.

Lemma not_snoc_self {A} (l : list A) x : l <> l ++ [x].
Proof.
  intros H. apply (f_equal length) in H. rewrite length_app in H. simpl in H. lia.
Qed.

Lemma submit_needs_flag e w f :
  f = save_callable \/ f = update_callable ->
  handshake_inv w -> posted (step e w) = posted w ++ [f] ->
  outstanding f w = 0%nat /\ flag_of f (self w) = true.
Proof.
  intros Hf Hinv Hp. destruct e as [a| |j].
  - rewrite click_posted in Hp. by destruct (not_snoc_self _ _ Hp).
  - destruct (main_view w) as (_ & Hp' & _). rewrite Hp' in Hp.
    by destruct (not_snoc_self _ _ Hp).
  - pose proof (background_view j w) as Hv. revert Hv Hp.
    generalize (step (Background j) w) as w'. intros w' Hv Hp.
    destruct (threads w !! j) as [[pc|pc p]|] eqn:Hj.
    + destruct Hv as (_ & _ & _ & [[_ Hq]|[_ Hq]]); rewrite Hq in Hp.
      * by destruct (not_snoc_self _ _ Hp).
      * apply app_inv_head in Hp. destruct Hf; congruence.
    + destruct Hv as (pc1 & p1 & Ht & Hv). unfold handshake_inv in Hinv.
      destruct (recorder (threads w)) as [|pc0 [|]] eqn:Hr; [| |done].
      { destruct (recorder_nil_lookup _ _ _ _ Hr Hj). }
      destruct (recorder_insert_record _ _ _ _ _ pc1 p1 Hj Hr) as [-> _].
      destruct pc0.
      * destruct Hv as (_ & _ & _ & _ & Hq). rewrite Hq in Hp.
        by destruct (not_snoc_self _ _ Hp).
      * destruct Hv as (_ & _ & [(_ & _ & Hq)|(Hs & _ & _ & _ & Hq)]);
          rewrite Hq in Hp; [by destruct (not_snoc_self _ _ Hp)|].
        apply app_inv_head in Hp. injection Hp as <-.
        split; [|exact Hs]. by apply Hinv.
      * destruct Hv as (_ & _ & [(_ & _ & Hq)|(Hu & _ & _ & Hq)]);
          rewrite Hq in Hp; [by destruct (not_snoc_self _ _ Hp)|].
        apply app_inv_head in Hp. injection Hp as <-.
        split; [|exact Hu]. by apply Hinv.
      * destruct Hv as (_ & _ & _ & _ & Hq). rewrite Hq in Hp.
        by destruct (not_snoc_self _ _ Hp).
      * destruct Hv as (_ & _ & _ & _ & Hq). rewrite Hq in Hp.
        by destruct (not_snoc_self _ _ Hp).
      * destruct Hv as (_ & _ & _ & _ & Hq). rewrite Hq in Hp.
        by destruct (not_snoc_self _ _ Hp).
    + simpl in Hv. subst w'. by destruct (not_snoc_self _ _ Hp).
Qed.

Lemma handshake_at_most_one w :
  handshake_inv w ->
  (outstanding save_callable w <= 1)%nat /\ (outstanding update_callable w <= 1)%nat.
Proof.
  unfold handshake_inv, handshake.
  destruct (recorder (threads w)) as [|pc [|]]; [| |done].
  - intros [-> ->]. lia.
  - destruct pc; intuition lia.
Qed.

(** X1: during one recording (Export Video from a state without
    recording thread and without queued capture or advance callable,
    followed by any schedule that has no second Export Video), at most
    one [save_callable] and at most one [update_callable] wait in the
    queue of the GUI thread, and an event submits one of them only when
    none of its kind waits and its flag reads true. *)
Theorem recording_handshake
    (w0 : World) (sched : list event) (e : event) (f : callable) :
  recordings w0 = 0%nat ->
  outstanding save_callable w0 = 0%nat ->
  outstanding update_callable w0 = 0%nat ->
  Forall (fun e => e <> Click ExportVideo) sched ->
  f = save_callable \/ f = update_callable ->
  let w := run sched (step (Click ExportVideo) w0) in
  (outstanding f w <= 1)%nat
  /\ (posted (step e w) = posted w ++ [f] ->
      outstanding f w = 0%nat /\ flag_of f (self w) = true).
Proof.
  intros Hr Hs Hu Hsched Hf w.
  assert (Hinv : handshake_inv w).
  { apply handshake_run; [exact Hsched|]. by apply handshake_export. }
  split.
  - destruct (handshake_at_most_one w Hinv). by destruct Hf as [-> | ->].
  - by apply submit_needs_flag.
Qed.

Lemma recording_handshake_witness :
  let w := run [Background 0] (step (Click ExportVideo) two_particles_world) in
  posted (step (Background 0) w) = posted w ++ [save_callable]
  /\ outstanding save_callable w = 0%nat
  /\ flag_of save_callable (self w) = true.
Proof.
  destruct (recording_handshake two_particles_world [Background 0] (Background 0)
              save_callable eq_refl eq_refl eq_refl
              ltac:(repeat constructor; discriminate) ltac:(left; reflexivity))
    as [_ H].
  split; [vm_compute; reflexivity | apply H; vm_compute; reflexivity].
Defined.



(** ** What no event changes *)

Lemma step_config e w :
  frame_rate (self (step e w)) = frame_rate (self w)
  /\ number_of_steps (self (step e w)) = number_of_steps (self w)
  /\ video_format (self (step e w)) = video_format (self w)
  /\ map name (particles (self (step e w))) = map name (particles (self w)).
Proof.
  open_world w. destruct e as [a| |j].
  - destruct a;
      unfold step, click, on_gui, _update_particles, _draw_particles, _export_scene,
        _export_video, _continuous_trajectory, _pause_run, start_thread; crush.
  - unfold step, on_gui, call, export_frame, _update_particles, _draw_particles; crush.
  - unfold step, thread_step, run_step, record_step; crush.
Qed.

Lemma step_counter e w :
  counter (self (step e w)) = counter (self w)
  \/ counter (self (step e w)) = next_counter (self w).
Proof.
  open_world w. unfold next_counter. destruct e as [a| |j].
  - destruct a;
      unfold step, click, on_gui, _update_particles, _draw_particles, _export_scene,
        _export_video, _continuous_trajectory, _pause_run, start_thread; crush; auto.
  - unfold step, on_gui, call, export_frame, _update_particles, _draw_particles;
      crush; auto.
  - unfold step, thread_step, run_step, record_step; crush; auto.
Qed.

Lemma run_config sched w :
  frame_rate (self (run sched w)) = frame_rate (self w)
  /\ number_of_steps (self (run sched w)) = number_of_steps (self w)
  /\ video_format (self (run sched w)) = video_format (self w)
  /\ map name (particles (self (run sched w))) = map name (particles (self w)).
Proof.
  revert w; induction sched as [|e s IH]; intros w; [done|].
  rewrite run_cons.
  destruct (IH (step e w)) as (-> & -> & -> & ->).
  apply step_config.
Qed.

(** X2: whatever the user clicks and however the threads interleave,
    the settings given to the constructor stay as they are: no event
    changes the frame rate, the number of steps, [store_run_files] or the
    video format, and the particle list keeps its names in their order
    (Export Scene rewrites one cache entry of the first particle, never a
    name). *)
Theorem settings_never_change (sched : list event) (w : World) :
  frame_rate (self (run sched w)) = frame_rate (self w)
  /\ number_of_steps (self (run sched w)) = number_of_steps (self w)
  /\ store_run_files (self (run sched w)) = store_run_files (self w)
  /\ video_format (self (run sched w)) = video_format (self w)
  /\ map name (particles (self (run sched w))) = map name (particles (self w)).
Proof.
  destruct (run_config sched w) as (H1 & H2 & H3 & H4).
  pose proof (run_store sched w) as H5. done.
Qed.

Lemma run_counter_in_range sched w :
  1 <= number_of_steps (self w) ->
  0 <= counter (self w) < number_of_steps (self w) ->
  0 <= counter (self (run sched w)) < number_of_steps (self w).
Proof.
  revert w; induction sched as [|e s IH]; intros w HS Hc; [done|].
  rewrite run_cons.
  destruct (step_config e w) as (_ & HS1 & _).
  rewrite <- HS1. apply IH; rewrite HS1; [done|].
  destruct (step_counter e w) as [-> | ->]; [done|].
  rewrite next_counter_mod by done. apply Z.mod_pos_bound. lia.
Qed.

(** X3: with at least one step and the counter inside [0 .. S-1], the
    counter stays inside [0 .. S-1] under every schedule of clicks, GUI
    callbacks and thread steps.  So the test [self.counter <
    self.number_of_steps] of the playback loop never fails: a playback
    thread at the head of its loop never leaves through the [while] test,
    only through the interrupt check or an exception of the sleep. *)
Theorem counter_stays_in_range (sched : list event) (w : World) :
  1 <= number_of_steps (self w) ->
  0 <= counter (self w) < number_of_steps (self w) ->
  let w' := run sched w in
  0 <= counter (self w') < number_of_steps (self w)
  /\ fst (run_step RunLoop w') <> RunReset
  /\ (0 < frame_rate (self w) ->
      run_step RunLoop w' = (RunCheck, post_to_main_thread update_particles_method w')).
Proof.
  intros HS Hc w'.
  pose proof (run_counter_in_range sched w HS Hc) as Hr.
  destruct (run_config sched w) as (Hf & Hn & _).
  fold w' in Hr, Hf, Hn. split; [exact Hr|].
  unfold run_step, sleep_frame. rewrite Hn, Hf.
  destruct (Z.ltb_spec (counter (self w')) (number_of_steps (self w))); [|lia].
  split.
  - repeat case_match; done.
  - intros Hpos.
    destruct (Z.eqb_spec (frame_rate (self w)) 0); [lia|].
    destruct (Z.ltb_spec (frame_rate (self w)) 0); [lia|done].
Qed.

Lemma counter_stays_in_range_witness :
  let w' := run [Click Step; Click Step; Click Step; Click Play; Background 0]
              two_particles_world in
  0 <= counter (self w') < 3
  /\ fst (run_step RunLoop w') <> RunReset.
Proof.
  destruct (counter_stays_in_range
              [Click Step; Click Step; Click Step; Click Play; Background 0]
              two_particles_world
              ltac:(vm_compute; discriminate)
              ltac:(split; vm_compute; [discriminate | reflexivity]))
    as (H1 & H2 & _).
  split; [exact H1 | exact H2].
Defined.

(** ** Export Video against an existing directory *)

(** X4: when [temp_video] exists, Export Video stops the playback flag
    first and then fails at [os.mkdir]: the file-exists error is raised on
    the GUI thread, [interrupt] is 0 afterwards, and no thread is started,
    nothing is queued and the disk is untouched.  With [store_run_files]
    set nothing ever removes the directory, so after every further
    schedule the action fails in the same way and the number of recording
    threads is what it was. *)
Theorem export_video_directory_exists (w : World) (sched : list event) :
  is_Some (temp_video (disk w)) ->
  let w' := step (Click ExportVideo) w in
  raised w' = FileExistsError :: raised w
  /\ interrupt (self w') = 0
  /\ threads w' = threads w /\ main_queue w' = main_queue w /\ disk w' = disk w
  /\ (store_run_files (self w) = true ->
      let w1 := run sched w in
      raised (step (Click ExportVideo) w1) = FileExistsError :: raised w1
      /\ threads (step (Click ExportVideo) w1) = threads w1
      /\ recordings w1 = recordings w).
Proof.
  assert (Hfail : forall w0, is_Some (temp_video (disk w0)) ->
            raised (step (Click ExportVideo) w0) = FileExistsError :: raised w0
            /\ interrupt (self (step (Click ExportVideo) w0)) = 0
            /\ threads (step (Click ExportVideo) w0) = threads w0
            /\ main_queue (step (Click ExportVideo) w0) = main_queue w0
            /\ disk (step (Click ExportVideo) w0) = disk w0).
  { intros w0 [entries Hd]. unfold step, click, _export_video. simpl.
    rewrite Hd. repeat split; reflexivity. }
  intros Hd w'. destruct (Hfail w Hd) as (H1 & H2 & H3 & H4 & H5).
  repeat (split; [assumption|]).
  intros Hs w1. destruct (run_keeps_dir sched w Hs Hd) as [Hd1 Hr1].
  destruct (Hfail w1 Hd1) as (G1 & _ & G3 & _). done.
Qed.

Lemma export_video_directory_exists_witness :
  let w := step (Click ExportVideo) two_particles_keep_world in
  let w1 := run (lockstep 0 3) w in
  raised (step (Click ExportVideo) w) = [FileExistsError]
  /\ raised (step (Click ExportVideo) w1) = [FileExistsError]
  /\ threads (step (Click ExportVideo) w1) = threads w1.
Proof.
  destruct (export_video_directory_exists
              (step (Click ExportVideo) two_particles_keep_world) (lockstep 0 3)
              ltac:(vm_compute; eexists; reflexivity))
    as (H1 & _ & _ & _ & _ & H).
  destruct (H eq_refl) as (G1 & G2 & _).
  split; [exact H1|]. split; [|exact G2]. rewrite G1. vm_compute. reflexivity.
Defined.

(** ** Failures of the assembler *)

Lemma image_number_error s e :
  image_number s = inl e -> e = AttributeError /\ re_search_digits s = None.
Proof. unfold image_number. destruct (re_search_digits s); [done|]. by intros [= <-]. Qed.

Lemma decorate_error images e :
  decorate images = inl e ->
  e = AttributeError /\ Exists (fun s => re_search_digits s = None) images.
Proof.
  induction images as [|s rest IH]; simpl; [done|].
  destruct (image_number s) as [e1|k] eqn:E.
  - intros [= <-]. apply image_number_error in E as [-> E]. split; [done|]. by left.
  - destruct (decorate rest); [|done]. intros [= <-].
    destruct (IH eq_refl) as [-> H]. split; [done|]. by right.
Qed.

Lemma decorate_no_digits images :
  Exists (fun s => re_search_digits s = None) images ->
  decorate images = inl AttributeError.
Proof.
  induction 1 as [s rest Hs|s rest _ IH]; simpl.
  - unfold image_number. by rewrite Hs.
  - rewrite IH. destruct (image_number s) as [e|k] eqn:E; [|done].
    by apply image_number_error in E as [-> _].
Qed.

(** X5: when the frame images have ASCII names and one of them has no
    digit in its name, the sort key raises the attribute error of
    [None.group()], whatever the other names are and wherever the name
    stands in the listing; this happens inside [sorted], before the
    first image is read and before the writer is constructed, so the
    file system is left exactly as it was.  It is the only way the
    sorting can fail. *)
Theorem _create_movie_name_without_number (v : Visualizer) (d : FileSystem) :
  Forall (fun s => ascii_name s = true) (glob_png d) ->
  (Exists (fun s => re_search_digits s = None) (glob_png d) ->
   sorted (glob_png d) = inl AttributeError
   /\ _create_movie v d = (d, Some AttributeError))
  /\ (forall e, sorted (glob_png d) = inl e ->
      e = AttributeError /\ Exists (fun s => re_search_digits s = None) (glob_png d)).
Proof.
  intros _. split.
  - intros H. unfold _create_movie, sorted. by rewrite (decorate_no_digits _ H).
  - intros e. unfold sorted.
    destruct (decorate (glob_png d)) as [e1|l] eqn:E; [|done].
    intros [= <-]. by apply decorate_error.
Qed.

Lemma _create_movie_name_without_number_witness :
  let d := frames_named ["frame_1.png"; "cover.png"; "frame_2.png"] in
  _create_movie two_particles d = (d, Some AttributeError).
Proof.
  intros d.
  destruct (_create_movie_name_without_number two_particles d
              ltac:(vm_compute; repeat constructor)) as [H _].
  apply H. vm_compute. right. left. reflexivity.
Defined.

(** ** A successful assembly *)

(** X6: when the names in [temp_video] are distinct and ASCII, at least
    one of them matches [*.png] and every such name carries a number,
    [_create_movie] raises nothing.  If OpenCV's writer opens for the
    visualizer's format and frame rate, [ZnVis-Video.<format>] is
    written at that frame rate with exactly the images of the png
    entries, each once, in non-decreasing order of the number in the
    name; if the writer does not open, no file is written.  Every other
    file of the working directory stays as it is, and in both cases the
    directory is kept with its entries when [store_run_files] is set and
    removed otherwise. *)
Theorem _create_movie_success
    (v : Visualizer) (d : FileSystem) (entries : list (string * image)) :
  temp_video d = Some entries ->
  NoDup (map fst entries) ->
  Forall (fun n => ascii_name n = true) (png_names entries) ->
  Forall (fun n => is_Some (re_search_digits n)) (png_names entries) ->
  png_names entries <> [] ->
  exists frames,
    Permutation frames (filter (fun e => Is_true (matches_png (fst e))) entries)
    /\ StronglySorted number_le (map fst frames)
    /\ _create_movie v d
       = (mkFileSystem (if store_run_files v then Some entries else None)
            (if video_writer d (video_format v) (frame_rate v)
             then <[video_name v := Video 0 (frame_rate v) (map snd frames)]> (cwd d)
             else cwd d)
            (video_writer d), None).
Proof.
  intros Hd Hnd _ Hnum Hne.
  destruct (_create_movie_entries v d entries Hd Hnd Hnum) as (frames & Hp & Hs & _ & Hm).
  exists frames. split; [exact Hp|]. split; [exact Hs|]. apply Hm.
  intros ->. apply Permutation_nil in Hp. unfold png_names in Hne. by rewrite Hp in Hne.
Qed.

Lemma _create_movie_success_witness :
  let entries := [("frame_2.png", tagged 2); ("notes.txt", empty);
                  ("frame_10.png", tagged 10); ("frame_1.png", tagged 1)] in
  let mp4 := mkVisualizer [blue; orange] 10 3 false "mp4" 0 0 true true in
  (exists frames,
     StronglySorted number_le (map fst frames)
     /\ _create_movie two_particles (mkFileSystem (Some entries) empty raw_avi)
        = (mkFileSystem None
             (<[video_name two_particles := Video 0 10 (map snd frames)]> empty)
             raw_avi, None))
  /\ (exists frames : list (string * image),
        _create_movie mp4 (mkFileSystem (Some entries) empty raw_avi)
        = (mkFileSystem None empty raw_avi, None)
        /\ StronglySorted number_le (map fst frames)).
Proof.
  intros entries mp4.
  assert (H1 : NoDup (map fst entries))
    by (apply (bool_decide_unpack _); vm_compute; reflexivity).
  assert (H2 : Forall (fun n => ascii_name n = true) (png_names entries))
    by (vm_compute; repeat constructor).
  assert (H3 : Forall (fun n => is_Some (re_search_digits n)) (png_names entries))
    by (vm_compute; repeat constructor; eexists; reflexivity).
  assert (H4 : png_names entries <> []) by (vm_compute; discriminate).
  split.
  - destruct (_create_movie_success two_particles
                (mkFileSystem (Some entries) empty raw_avi) entries eq_refl H1 H2 H3 H4)
      as (frames & _ & Hs & Hm).
    exists frames. split; [exact Hs | exact Hm].
  - destruct (_create_movie_success mp4
                (mkFileSystem (Some entries) empty raw_avi) entries eq_refl H1 H2 H3 H4)
      as (frames & _ & Hs & Hm).
    exists frames. split; [exact Hm | exact Hs].
Defined.

(** ** File names and the numbers in them *)

Lemma string_app_nil_l t : EmptyString +:+ t = t.
Proof. reflexivity. Qed.

Lemma string_app_cons a s t : String a s +:+ t = String a (s +:+ t).
Proof. reflexivity. Qed.

Lemma string_length_app s t :
  String.length (s +:+ t) = (String.length s + String.length t)%nat.
Proof.
  induction s as [|a s IH]; [done|]. rewrite string_app_cons. simpl. by rewrite IH.
Qed.

Lemma string_app_assoc s t u : (s +:+ t) +:+ u = s +:+ t +:+ u.
Proof.
  induction s as [|a s IH]; [done|]. rewrite !string_app_cons. by rewrite IH.
Qed.

Lemma string_app_nil_r s : s +:+ EmptyString = s.
Proof. induction s as [|a s IH]; [done|]. rewrite string_app_cons. by rewrite IH. Qed.

Lemma string_app_inv_tail s1 s2 t : s1 +:+ t = s2 +:+ t -> s1 = s2.
Proof.
  revert s2; induction s1 as [|a s1 IH]; intros [|b s2] H;
    rewrite ?string_app_cons, ?string_app_nil_l in H; [done|..].
  - apply (f_equal String.length) in H. simpl in H. rewrite string_length_app in H. lia.
  - apply (f_equal String.length) in H. simpl in H. rewrite string_length_app in H. lia.
  - injection H as -> H. f_equal. by apply IH.
Qed.

Lemma substring_all s : substring 0 (String.length s) s = s.
Proof. induction s as [|a s IH]; simpl; [done|]. by rewrite IH. Qed.

Lemma substring_skip p n s : substring (String.length p) n (p +:+ s) = substring 0 n s.
Proof. induction p as [|a p IH]; [done|]. rewrite string_app_cons. simpl. exact IH. Qed.

Lemma ends_with_app p suffix : ends_with suffix (p +:+ suffix) = true.
Proof.
  unfold ends_with. rewrite string_length_app.
  replace (String.length p + String.length suffix - String.length suffix)%nat
    with (String.length p) by lia.
  rewrite substring_skip, substring_all, String.eqb_refl. simpl.
  apply Nat.leb_le. lia.
Qed.

Lemma take_digits_cons a d :
  take_digits (String a d) = String a d -> is_digit a = true /\ take_digits d = d.
Proof. simpl. destruct (is_digit a); [|done]. intros [= H]. done. Qed.

Lemma take_digits_app d t :
  take_digits d = d -> take_digits (d +:+ t) = d +:+ take_digits t.
Proof.
  induction d as [|a d IH]; [done|]. intros [Ha Hd]%take_digits_cons.
  rewrite !string_app_cons. simpl. rewrite Ha. by rewrite IH.
Qed.

Lemma re_search_digits_app d t :
  take_digits d = d -> d <> EmptyString ->
  re_search_digits (d +:+ t) = Some (d +:+ take_digits t).
Proof.
  destruct d as [|a d]; [done|]. intros [Ha Hd]%take_digits_cons _.
  rewrite !string_app_cons. simpl. rewrite Ha. by rewrite take_digits_app.
Qed.

Lemma pretty_N_char_digit m :
  (m < 10)%N ->
  is_digit (pretty_N_char m) = true /\ digit_value (pretty_N_char m) = Z.of_N m.
Proof.
  intros H.
  assert (m = 0 \/ m = 1 \/ m = 2 \/ m = 3 \/ m = 4 \/ m = 5 \/ m = 6 \/ m = 7
          \/ m = 8 \/ m = 9)%N as Hm by lia.
  repeat destruct Hm as [->|Hm]; try subst m; by vm_compute.
Qed.

Lemma pretty_N_go_digits x s :
  take_digits s = s -> take_digits (pretty_N_go x s) = pretty_N_go x s.
Proof.
  revert s. induction (N.lt_wf_0 x) as [x _ IH]; intros s Hs.
  assert (x = 0 \/ 0 < x)%N as [->|Hx] by lia; [by rewrite pretty_N_go_0|].
  rewrite pretty_N_go_step by done. apply IH; [by apply N.div_lt|].
  simpl. destruct (pretty_N_char_digit (x `mod` 10)) as [-> _].
  { by apply N.mod_lt. }
  by rewrite Hs.
Qed.

Lemma pretty_N_go_nonempty x s : s <> EmptyString -> pretty_N_go x s <> EmptyString.
Proof.
  revert s. induction (N.lt_wf_0 x) as [x _ IH]; intros s Hs.
  assert (x = 0 \/ 0 < x)%N as [->|Hx] by lia; [by rewrite pretty_N_go_0|].
  rewrite pretty_N_go_step by done. apply IH; [by apply N.div_lt|done].
Qed.

Lemma pretty_N_go_int x :
  exists k : nat, forall acc s,
    int_from acc (pretty_N_go x s) = int_from (acc * 10 ^ Z.of_nat k + Z.of_N x) s.
Proof.
  induction (N.lt_wf_0 x) as [x _ IH].
  assert (x = 0 \/ 0 < x)%N as [->|Hx] by lia.
  - exists 0%nat. intros acc s. rewrite pretty_N_go_0. f_equal. simpl. lia.
  - destruct (IH (x `div` 10)%N) as [k Hk]; [by apply N.div_lt|].
    exists (S k). intros acc s. rewrite pretty_N_go_step by done.
    rewrite Hk. simpl int_from.
    destruct (pretty_N_char_digit (x `mod` 10)) as [_ ->]; [by apply N.mod_lt|].
    f_equal. rewrite Nat2Z.inj_succ, Z.pow_succ_r by lia.
    pose proof (N.div_mod x 10 ltac:(done)). lia.
Qed.

Lemma pretty_N_decimal (n : N) :
  take_digits (pretty n) = pretty n /\ pretty n <> EmptyString
  /\ int (pretty n) = Z.of_N n.
Proof.
  unfold pretty, pretty_N. case_decide as Hn; [by subst|].
  split; [by apply pretty_N_go_digits|]. split.
  - rewrite pretty_N_go_step by lia. by apply pretty_N_go_nonempty.
  - destruct (pretty_N_go_int n) as [k Hk]. unfold int. rewrite Hk. simpl. lia.
Qed.

Lemma image_number_frame_name c :
  image_number (in_temp_video (frame_name c)) = inr (Z.abs c).
Proof.
  unfold image_number, in_temp_video, frame_name.
  destruct c as [|p|p].
  - reflexivity.
  - destruct (pretty_N_decimal (Npos p)) as (Hd & Hne & Hi).
    change (re_search_digits ("temp_video/" +:+ "frame_" +:+ pretty (Z.pos p) +:+ ".png"))
      with (re_search_digits (pretty (Npos p) +:+ ".png")).
    rewrite re_search_digits_app by done. simpl take_digits.
    by rewrite string_app_nil_r, Hi.
  - destruct (pretty_N_decimal (Npos p)) as (Hd & Hne & Hi).
    change (re_search_digits ("temp_video/" +:+ "frame_" +:+ pretty (Z.neg p) +:+ ".png"))
      with (re_search_digits (pretty (Npos p) +:+ ".png")).
    rewrite re_search_digits_app by done. simpl take_digits.
    by rewrite string_app_nil_r, Hi.
Qed.

Lemma frame_name_inj : Inj (=) (=) frame_name.
Proof.
  intros a b H. unfold frame_name in H. simplify_eq/=.
  apply string_app_inv_tail in H. by apply (inj pretty).
Qed.

(** X7: the file name that [save_callable] builds for a frame and the
    sort key that [_create_movie] reads back fit together.
    [frame_<c>.png] is matched by the pattern [*.png]; the first run of
    digits of its path is the decimal form of [c], so the key is [c] for
    every counter that is not negative (the sign of a negative one is
    lost); and different counters give different file names, so frames of
    different steps never overwrite one another. *)
Theorem frame_name_round_trip (c : Z) :
  matches_png (frame_name c) = true
  /\ image_number (in_temp_video (frame_name c)) = inr (Z.abs c)
  /\ (0 <= c -> number (in_temp_video (frame_name c)) = c)
  /\ (forall c', frame_name c' = frame_name c -> c' = c).
Proof.
  split; [|split; [|split]].
  - unfold matches_png, frame_name.
    rewrite <- string_app_assoc, ends_with_app. reflexivity.
  - apply image_number_frame_name.
  - intros Hc. unfold number. rewrite image_number_frame_name. lia.
  - intros c' H. by apply frame_name_inj in H.
Qed.

(** ** What the window shows *)

Lemma draw_loop_scene c ps sc :
  cached_at c ps -> NoDup (map name ps) ->
  (forall p, p ∈ ps -> fst (draw_loop false c ps sc) !! name p = mesh_dict p !! c)
  /\ (forall n, n ∉ map name ps -> fst (draw_loop false c ps sc) !! n = sc !! n).
Proof.
  intros Hc. revert sc. induction Hc as [|p0 ps [m Hm] _ IH]; intros sc Hnd.
  { split; [|done]. intros p Hp. by apply elem_of_nil in Hp. }
  simpl in Hnd. apply NoDup_cons in Hnd as [Hnot Hnd].
  simpl. unfold draw_particle. rewrite Hm.
  destruct (IH (<[name p0:=m]> (delete (name p0) sc)) Hnd) as [IH1 IH2].
  split.
  - intros p [->|Hp]%elem_of_cons; [|by apply IH1].
    rewrite IH2 by done. by rewrite lookup_insert_eq.
  - intros n Hn. apply not_elem_of_cons in Hn as [Hn0 Hn].
    rewrite IH2 by done. by rewrite lookup_insert_ne, lookup_delete_ne.
Qed.

Lemma draw_loop_missing c pre p post sc :
  cached_at c pre -> mesh_dict p !! c = None ->
  NoDup (map name (pre ++ p :: post)) ->
  snd (draw_loop false c (pre ++ p :: post) sc) = Some IndexError
  /\ fst (draw_loop false c (pre ++ p :: post) sc) !! name p = None
  /\ (forall q, q ∈ pre ->
      fst (draw_loop false c (pre ++ p :: post) sc) !! name q = mesh_dict q !! c)
  /\ (forall n, n ∉ map name (pre ++ [p]) ->
      fst (draw_loop false c (pre ++ p :: post) sc) !! n = sc !! n).
Proof.
  intros Hc Hp. revert sc. induction Hc as [|p0 pre [m Hm] _ IH]; intros sc Hnd.
  - simpl. unfold draw_particle. rewrite Hp. simpl.
    split; [done|]. split; [apply lookup_delete_eq|]. split.
    + intros q Hq. by apply elem_of_nil in Hq.
    + intros n Hn. apply not_elem_of_cons in Hn as [Hn _].
      by rewrite lookup_delete_ne.
  - simpl in Hnd. apply NoDup_cons in Hnd as [Hnot Hnd].
    simpl. unfold draw_particle. rewrite Hm.
    destruct (IH (<[name p0:=m]> (delete (name p0) sc)) Hnd) as (IH1 & IH2 & IH3 & IH4).
    assert (Hp0 : name p0 ∉ map name (pre ++ [p])).
    { intros Hin. apply Hnot. rewrite map_app in Hin |- *.
      apply elem_of_app in Hin as [Hin|Hin]; apply elem_of_app; [by left|right].
      simpl in *. apply list_elem_of_singleton in Hin. rewrite Hin. by left. }
    split; [done|]. split; [done|]. split.
    + intros q [->|Hq]%elem_of_cons; [|by apply IH3].
      rewrite IH4 by done. by rewrite lookup_insert_eq.
    + intros n Hn. simpl in Hn. apply not_elem_of_cons in Hn as [Hn0 Hn].
      rewrite IH4 by done. by rewrite lookup_insert_ne, lookup_delete_ne.
Qed.

Lemma _update_particles_None w :
  _update_particles None w
  = let c' := next_counter (self w) in
    let w1 := set_self (set_counter c' (self w)) w in
    match draw_loop false c' (particles (self w)) (scene w) with
    | (sc, None) => (set_redraws (S (redraws w)) (set_scene sc w1), None)
    | (sc, Some e) => (set_scene sc w1, Some e)
    end.
Proof.
  open_world w. unfold _update_particles, _draw_particles, next_counter. simpl.
  destruct (c =? S - 1)%Z; simpl;
    match goal with |- context [draw_loop ?a ?b ?c ?d] =>
      destruct (draw_loop a b c d) as [sc1 [e|]] end; reflexivity.
Qed.

(** X9: when the particle names are distinct and every particle caches
    a mesh for the next step, a Step (the call [_update_particles()]
    without index) succeeds, advances the counter, requests one redraw,
    and leaves the window showing under each particle's name exactly that
    particle's mesh of the new step; geometry under other names is not
    touched.  Run as [update_callable] it then sets
    [update_thread_finished]. *)
Theorem step_shows_next_frame (w : World) :
  NoDup (map name (particles (self w))) ->
  cached_at (next_counter (self w)) (particles (self w)) ->
  let w' := fst (_update_particles None w) in
  snd (_update_particles None w) = None
  /\ counter (self w') = next_counter (self w)
  /\ redraws w' = S (redraws w)
  /\ (forall p, p ∈ particles (self w) ->
      scene w' !! name p = mesh_dict p !! next_counter (self w))
  /\ (forall n, n ∉ map name (particles (self w)) -> scene w' !! n = scene w !! n)
  /\ call update_callable w
     = (set_self (set_update_thread_finished true (self w')) w', None).
Proof.
  intros Hnd Hc w'. unfold w', call. rewrite _update_particles_None. cbv zeta.
  pose proof (draw_loop_cached false _ _ (scene w) Hc) as Hr.
  destruct (draw_loop_scene _ _ (scene w) Hc Hnd) as [H1 H2].
  destruct (draw_loop false (next_counter (self w)) (particles (self w)) (scene w))
    as [sc r]. simpl in Hr. subst r. simpl in *. done.
Qed.

Lemma step_shows_next_frame_witness :
  let w' := fst (_update_particles None two_particles_world) in
  counter (self w') = 1
  /\ scene w' !! "Blue" = Some [2] /\ scene w' !! "Orange" = Some [20].
Proof.
  destruct (step_shows_next_frame two_particles_world
              ltac:(apply (bool_decide_unpack _); vm_compute; reflexivity)
              ltac:(repeat constructor; eexists; vm_compute; reflexivity))
    as (_ & H1 & _ & H2 & _).
  split; [exact H1|].
  split; [apply (H2 blue) | apply (H2 orange)]; vm_compute; set_solver.
Defined.

(** X10: when a particle has no cached mesh for the next step, the Step
    still advances the counter and then fails half way through the
    drawing loop with an index error: no redraw is requested, the particles
    before the failing one already show the new step, the failing
    particle's geometry has been removed from the window, and the
    particles after it still show what they showed before.  Run as
    [update_callable], the error leaves [update_thread_finished]
    unset. *)
Theorem step_missing_mesh (w : World) (pre : list Particle) (p : Particle)
    (post : list Particle) :
  particles (self w) = pre ++ p :: post ->
  NoDup (map name (particles (self w))) ->
  cached_at (next_counter (self w)) pre ->
  mesh_dict p !! next_counter (self w) = None ->
  let w' := fst (_update_particles None w) in
  snd (_update_particles None w) = Some IndexError
  /\ counter (self w') = next_counter (self w)
  /\ redraws w' = redraws w
  /\ scene w' !! name p = None
  /\ (forall q, q ∈ pre -> scene w' !! name q = mesh_dict q !! next_counter (self w))
  /\ (forall q, q ∈ post -> scene w' !! name q = scene w !! name q)
  /\ snd (call update_callable w) = Some IndexError
  /\ update_thread_finished (self (fst (call update_callable w)))
     = update_thread_finished (self w).
Proof.
  intros Hps Hnd Hc Hp w'. unfold w', call. rewrite _update_particles_None. cbv zeta.
  rewrite Hps in Hnd |- *.
  destruct (draw_loop_missing _ _ _ post (scene w) Hc Hp Hnd) as (H1 & H2 & H3 & H4).
  assert (Hpost : forall q, q ∈ post -> name q ∉ map name (pre ++ [p])).
  { intros q Hq Hin.
    replace (pre ++ p :: post) with ((pre ++ [p]) ++ post) in Hnd
      by (by rewrite <- app_assoc).
    rewrite map_app in Hnd. apply NoDup_app in Hnd as (_ & Hd & _).
    apply (Hd _ Hin). apply list_elem_of_In, in_map, list_elem_of_In, Hq. }
  destruct (draw_loop false (next_counter (self w)) (pre ++ p :: post) (scene w))
    as [sc r]. simpl in H1. subst r. simpl in *.
  repeat (split; [done|]). split; [|done]. intros q Hq. apply H4. by apply Hpost.
Qed.

Lemma step_missing_mesh_witness :
  let short := mkParticle "Short" 1 {[0 := [7]]} in
  let w := run_visualization
             (mkVisualizer [blue; short; orange] 10 3 false "avi" 0 0 true true)
             empty_disk in
  let w' := fst (_update_particles None w) in
  snd (_update_particles None w) = Some IndexError
  /\ counter (self w') = 1
  /\ scene w' !! "Blue" = Some [2]
  /\ scene w' !! "Short" = None
  /\ scene w' !! "Orange" = Some [10].
Proof.
  intros short w.
  destruct (step_missing_mesh w [blue] short [orange] eq_refl
              ltac:(apply (bool_decide_unpack _); vm_compute; reflexivity)
              ltac:(repeat constructor; eexists; vm_compute; reflexivity)
              ltac:(vm_compute; reflexivity))
    as (H1 & H2 & _ & H3 & H4 & H5 & _).
  split; [exact H1|]. split; [exact H2|].
  split; [apply (H4 blue); set_solver|]. split; [exact H3|].
  etrans; [apply (H5 orange); set_solver|]. vm_compute. reflexivity.
Defined.

(** ** Export Scene *)

Lemma mesh_sum_loop_cached c acc rest :
  cached_at c rest ->
  mesh_sum_loop c acc rest
  = (acc ++ concat (omap (fun q => mesh_dict q !! c) rest), None).
Proof.
  intros H. revert acc. induction H as [|q rest [m Hm] _ IH]; intros acc; simpl.
  - by rewrite app_nil_r.
  - unfold mesh in *. rewrite Hm. simpl. rewrite IH. by rewrite <- app_assoc.
Qed.

Lemma mesh_sum_loop_missing c acc pre q post :
  cached_at c pre -> mesh_dict q !! c = None ->
  mesh_sum_loop c acc (pre ++ q :: post)
  = (acc ++ concat (omap (fun q => mesh_dict q !! c) pre), Some IndexError).
Proof.
  intros H Hq. revert acc. induction H as [|q0 pre [m Hm] _ IH]; intros acc; simpl.
  - unfold mesh in *. rewrite Hq. by rewrite app_nil_r.
  - unfold mesh in *. rewrite Hm. simpl. rewrite IH. by rewrite <- app_assoc.
Qed.

Lemma _export_scene_sum w p0 rest m0 m :
  particles (self w) = p0 :: rest ->
  mesh_dict p0 !! counter (self w) = Some m0 ->
  mesh_sum_loop (counter (self w)) m0 rest = (m, None) ->
  let c := counter (self w) in
  let p0' := mkParticle (name p0) (position_shape0 p0) (<[c := m]> (mesh_dict p0)) in
  let w2 := set_self (set_particles (p0' :: rest) (set_interrupt 0 (self w))) w in
  let w3 := match m with
            | [] => w2
            | _ :: _ => write_cwd (ply_name c) (Ply m) w2
            end in
  _export_scene w
  = (if (interrupt (self w) =? 1)%Z then start_thread (run_trajectory RunStart) w3 else w3,
     None).
Proof.
  intros Hps Hm0 Hsum. cbv zeta.
  unfold _export_scene. simpl. rewrite Hps. unfold mesh in *. rewrite Hm0, Hsum.
  destruct m; destruct (interrupt (self w) =? 1)%Z; reflexivity.
Qed.

Lemma _export_scene_sum_state w p0 rest m0 m :
  particles (self w) = p0 :: rest ->
  mesh_dict p0 !! counter (self w) = Some m0 ->
  mesh_sum_loop (counter (self w)) m0 rest = (m, None) ->
  let c := counter (self w) in
  let w' := fst (_export_scene w) in
  snd (_export_scene w) = None
  /\ cwd (disk w')
     = match m with
       | [] => cwd (disk w)
       | _ :: _ => <[ply_name c := Ply m]> (cwd (disk w))
       end
  /\ particles (self w')
     = mkParticle (name p0) (position_shape0 p0) (<[c := m]> (mesh_dict p0)) :: rest
  /\ interrupt (self w') = 0
  /\ threads w'
     = (if (interrupt (self w) =? 1)%Z then threads w ++ [run_trajectory RunStart]
        else threads w)
  /\ counter (self w') = c /\ scene w' = scene w.
Proof.
  intros Hps Hm0 Hsum. cbv zeta. rewrite (_export_scene_sum w p0 rest m0 m Hps Hm0 Hsum).
  cbv zeta. destruct m; destruct (interrupt (self w) =? 1)%Z; done.
Qed.

Lemma omap_cached_cons c p0 rest m0 :
  mesh_dict p0 !! c = Some m0 ->
  concat (omap (fun q => mesh_dict q !! c) (p0 :: rest))
  = m0 ++ concat (omap (fun q => mesh_dict q !! c) rest).
Proof.
  intros Hm0.
  change (omap (fun q => mesh_dict q !! c) (p0 :: rest))
    with (match mesh_dict p0 !! c with
          | Some y => y :: omap (fun q => mesh_dict q !! c) rest
          | None => omap (fun q => mesh_dict q !! c) rest
          end).
  unfold mesh in *. by rewrite Hm0.
Qed.

Lemma _export_scene_cached w p0 rest :
  particles (self w) = p0 :: rest ->
  cached_at (counter (self w)) (p0 :: rest) ->
  let c := counter (self w) in
  let whole := concat (omap (fun q => mesh_dict q !! c) (p0 :: rest)) in
  let p0' := mkParticle (name p0) (position_shape0 p0) (<[c := whole]> (mesh_dict p0)) in
  let w2 := set_self (set_particles (p0' :: rest) (set_interrupt 0 (self w))) w in
  let w3 := match whole with
            | [] => w2
            | _ :: _ => write_cwd (ply_name c) (Ply whole) w2
            end in
  _export_scene w
  = (if (interrupt (self w) =? 1)%Z then start_thread (run_trajectory RunStart) w3 else w3,
     None).
Proof.
  intros Hps Hc c whole. apply Forall_cons in Hc as [[m0 Hm0] Hrest].
  apply (_export_scene_sum w p0 rest m0 whole Hps Hm0).
  unfold whole, c. rewrite (omap_cached_cons _ _ _ _ Hm0).
  by apply mesh_sum_loop_cached.
Qed.

Lemma _export_scene_threads w p0 rest :
  particles (self w) = p0 :: rest ->
  cached_at (counter (self w)) (p0 :: rest) ->
  snd (_export_scene w) = None
  /\ interrupt (self (fst (_export_scene w))) = 0
  /\ threads (fst (_export_scene w))
     = (if (interrupt (self w) =? 1)%Z then threads w ++ [run_trajectory RunStart]
        else threads w).
Proof.
  intros Hps Hc. rewrite (_export_scene_cached w p0 rest Hps Hc). cbv zeta.
  destruct (concat _); destruct (interrupt (self w) =? 1)%Z; done.
Qed.

(** X11: with at least one particle and a cached mesh of the current
    step for every particle, Export Scene adds up the meshes of all
    particles at that step in list order and, unless that sum is the
    mesh without vertex (for which open3d writes nothing), writes it to
    [My_mesh_<counter>.ply]; it leaves [interrupt] at 0 and, if playback
    was running, starts one new playback thread.  The sum is accumulated
    in the first particle's cached mesh object: afterwards that cache
    entry is the whole sum, so a second Export Scene at the same step
    writes the other particles' meshes twice. *)
Theorem export_scene_accumulates_in_cache
    (w : World) (p0 : Particle) (rest : list Particle) :
  particles (self w) = p0 :: rest ->
  cached_at (counter (self w)) (p0 :: rest) ->
  let c := counter (self w) in
  let whole := concat (omap (fun q => mesh_dict q !! c) (p0 :: rest)) in
  let again := whole ++ concat (omap (fun q => mesh_dict q !! c) rest) in
  let w' := fst (_export_scene w) in
  snd (_export_scene w) = None
  /\ cwd (disk w')
     = match whole with
       | [] => cwd (disk w)
       | _ :: _ => <[ply_name c := Ply whole]> (cwd (disk w))
       end
  /\ (exists p0', particles (self w') = p0' :: rest /\ name p0' = name p0
                  /\ mesh_dict p0' = <[c := whole]> (mesh_dict p0))
  /\ interrupt (self w') = 0
  /\ threads w'
     = (if (interrupt (self w) =? 1)%Z then threads w ++ [run_trajectory RunStart]
        else threads w)
  /\ counter (self w') = c /\ scene w' = scene w
  /\ cwd (disk (fst (_export_scene w')))
     = match again with
       | [] => cwd (disk w')
       | _ :: _ => <[ply_name c := Ply again]> (cwd (disk w'))
       end.
Proof.
  intros Hps Hc c whole again w'.
  apply Forall_cons in Hc as [[m0 Hm0] Hrest].
  assert (Hsum : mesh_sum_loop c m0 rest = (whole, None)).
  { unfold whole. rewrite (omap_cached_cons _ _ _ _ Hm0). by apply mesh_sum_loop_cached. }
  destruct (_export_scene_sum_state w p0 rest m0 whole Hps Hm0 Hsum)
    as (H1 & H2 & H3 & H4 & H5 & H6 & H7).
  fold c w' in H1, H2, H3, H4, H5, H6, H7.
  split; [exact H1|]. split; [exact H2|]. split; [by eauto|].
  split; [exact H4|]. split; [exact H5|]. split; [exact H6|]. split; [exact H7|].
  assert (Hsum' : mesh_sum_loop (counter (self w')) whole rest = (again, None)).
  { rewrite H6. unfold again. by apply mesh_sum_loop_cached. }
  destruct (_export_scene_sum_state w' _ rest whole again H3) as (_ & G & _).
  { rewrite H6. simpl. apply lookup_insert_eq. }
  { exact Hsum'. }
  rewrite H6 in G. exact G.
Qed.

Lemma export_scene_accumulates_in_cache_witness :
  let w' := fst (_export_scene two_particles_world) in
  cwd (disk w') !! "My_mesh_0.ply" = Some (Ply [1; 10])
  /\ cwd (disk (fst (_export_scene w'))) !! "My_mesh_0.ply" = Some (Ply [1; 10; 10]).
Proof.
  destruct (export_scene_accumulates_in_cache two_particles_world blue [orange] eq_refl
              ltac:(repeat constructor; eexists; vm_compute; reflexivity))
    as (_ & H1 & _ & _ & _ & _ & _ & H2).
  split; [rewrite H1 | rewrite H2]; vm_compute; reflexivity.
Defined.

Lemma mesh_sum_loop_error c acc rest e :
  snd (mesh_sum_loop c acc rest) = Some e -> e = IndexError.
Proof.
  revert acc. induction rest as [|q rest IH]; intros acc; simpl; [done|].
  destruct (mesh_dict q !! c); [apply IH|]. simpl. congruence.
Qed.

(** X12: Export Scene fails in two ways.  With an empty particle list
    the name [mesh] is never bound and the write raises the
    unbound-local error; a particle without a cached mesh for the current
    step raises the index error of its list.  Whenever it fails, no file
    is written, [interrupt] is 0 and no thread is started: playback that
    was running when the action was picked is stopped and not restarted.
    If the failing particle is not the first, the meshes of the particles
    before it have already been added to the first particle's cached
    mesh. *)
Theorem export_scene_failures (w : World) :
  let c := counter (self w) in
  let w' := fst (_export_scene w) in
  (particles (self w) = [] -> snd (_export_scene w) = Some UnboundLocalError)
  /\ (forall e, snd (_export_scene w) = Some e ->
      (e = UnboundLocalError \/ e = IndexError)
      /\ disk w' = disk w /\ interrupt (self w') = 0 /\ threads w' = threads w
      /\ main_queue w' = main_queue w)
  /\ (forall p0 pre q post,
      particles (self w) = p0 :: pre ++ q :: post ->
      cached_at c (p0 :: pre) -> mesh_dict q !! c = None ->
      snd (_export_scene w) = Some IndexError
      /\ exists p0', particles (self w') = p0' :: pre ++ q :: post
           /\ mesh_dict p0'
              = <[c := concat (omap (fun q => mesh_dict q !! c) (p0 :: pre))]>
                  (mesh_dict p0)).
Proof.
  intros c w'. split; [|split].
  - intros Hps. unfold _export_scene. simpl. by rewrite Hps.
  - intros e. unfold w', _export_scene. simpl.
    destruct (particles (self w)) as [|p0 rest]; simpl.
    { intros [= <-]. auto 10. }
    destruct (mesh_dict p0 !! counter (self w)) as [m0|]; simpl.
    2: { intros [= <-]. auto 10. }
    destruct (mesh_sum_loop (counter (self w)) m0 rest) as [m r] eqn:E.
    destruct r as [e1|]; simpl.
    + intros [= <-]. pose proof (mesh_sum_loop_error (counter (self w)) m0 rest e1) as He.
      rewrite E in He. rewrite (He eq_refl). auto 10.
    + by destruct m; destruct (interrupt (self w) =? 1)%Z.
  - intros p0 pre q post Hps Hc Hq.
    apply Forall_cons in Hc as [[m0 Hm0] Hpre].
    rewrite (omap_cached_cons _ _ _ _ Hm0).
    unfold w', _export_scene. simpl. rewrite Hps. fold c. unfold mesh in *. rewrite Hm0.
    rewrite (mesh_sum_loop_missing c m0 pre q post Hpre Hq).
    split; [done|]. eexists. split; reflexivity.
Qed.

(** ** Playback threads *)

Lemma click_play_stopped w :
  interrupt (self w) <> 1 ->
  step (Click Play) w = start_thread (run_trajectory RunStart) w.
Proof.
  intros H. unfold step, click, _continuous_trajectory.
  destruct (Z.eqb_spec (interrupt (self w)) 1); done.
Qed.

Lemma active_run_loops_app w t :
  active_run_loops (start_thread t w)
  = (active_run_loops w + if is_run_loop t && active t then 1 else 0)%nat.
Proof.
  unfold active_run_loops, start_thread. simpl.
  rewrite List.filter_app, length_app. simpl.
  by destruct (is_run_loop t && active t).
Qed.

(** X13: Play looks at the flag [interrupt], not at the threads.  The
    flag is set by the playback thread itself, in its first step; while
    it still reads "not running", every Play click starts one more
    playback thread: [n] clicks in a row leave [n] new threads and the
    flag as it was. *)
Theorem play_starts_a_thread_per_click (w : World) (n : nat) :
  interrupt (self w) <> 1 ->
  let w' := run (replicate n (Click Play)) w in
  threads w' = threads w ++ replicate n (run_trajectory RunStart)
  /\ interrupt (self w') = interrupt (self w)
  /\ active_run_loops w' = (active_run_loops w + n)%nat.
Proof.
  revert w. induction n as [|n IH]; intros w Hi w'.
  - unfold w'. simpl. rewrite app_nil_r. split; [done|]. split; [done|lia].
  - unfold w'. change (replicate (S n) (Click Play))
      with (Click Play :: replicate n (Click Play)).
    rewrite run_cons, (click_play_stopped w Hi).
    destruct (IH (start_thread (run_trajectory RunStart) w) Hi) as (H1 & H2 & H3).
    rewrite H1, H2, H3, active_run_loops_app. simpl.
    split; [by rewrite <- app_assoc|]. split; [done|lia].
Qed.

Lemma play_starts_a_thread_per_click_witness :
  threads (run [Click Play; Click Play] two_particles_world)
  = [run_trajectory RunStart; run_trajectory RunStart].
Proof.
  destruct (play_starts_a_thread_per_click two_particles_world 2
              ltac:(vm_compute; discriminate)) as (H & _).
  exact H.
Defined.

Lemma background_run_thread j w pc :
  threads w !! j = Some (run_trajectory pc) ->
  step (Background j) w
  = set_threads (<[j := run_trajectory (fst (run_step pc w))]>
                   (threads (snd (run_step pc w)))) (snd (run_step pc w)).
Proof.
  intros H. unfold step. rewrite H. unfold thread_step.
  by destruct (run_step pc w).
Qed.

Lemma playback_pass j w :
  threads w !! j = Some (run_trajectory RunLoop) ->
  interrupt (self w) = 1 -> 0 < frame_rate (self w) ->
  counter (self w) < number_of_steps (self w) ->
  run [Background j; Background j] w = post_to_main_thread update_particles_method w.
Proof.
  intros Hj Hi Hr Hc. rewrite !run_cons.
  rewrite (background_run_thread j w RunLoop Hj).
  unfold run_step at 1 2 3, sleep_frame.
  destruct (Z.ltb_spec (counter (self w)) (number_of_steps (self w))); [|lia].
  destruct (Z.eqb_spec (frame_rate (self w)) 0); [lia|].
  destruct (Z.ltb_spec (frame_rate (self w)) 0); [lia|]. simpl.
  rewrite list_lookup_insert_eq by (by apply lookup_lt_Some in Hj).
  simpl. rewrite Hi. simpl. rewrite list_insert_insert_eq, list_insert_id by done.
  by destruct w.
Qed.

(** X14: the playback loop does not wait for the GUI thread.  A playback
    thread at the head of its loop, with the flag set, a positive frame
    rate and the counter below the number of steps, posts one
    [_update_particles] per pass whether or not the earlier ones have
    run: after [k] passes without the GUI thread running, [k] more
    updates wait in the queue, and the thread, the visualizer's
    attributes and the window are as before. *)
Theorem playback_posts_without_waiting (w : World) (j k : nat) :
  threads w !! j = Some (run_trajectory RunLoop) ->
  interrupt (self w) = 1 ->
  0 < frame_rate (self w) ->
  counter (self w) < number_of_steps (self w) ->
  let w' := run (concat (replicate k [Background j; Background j])) w in
  main_queue w' = main_queue w ++ replicate k update_particles_method
  /\ posted w' = posted w ++ replicate k update_particles_method
  /\ threads w' = threads w /\ self w' = self w /\ scene w' = scene w.
Proof.
  revert w. induction k as [|k IH]; intros w Hj Hi Hr Hc w'.
  - unfold w'. simpl. by rewrite !app_nil_r.
  - unfold w'.
    change (concat (replicate (S k) [Background j; Background j]))
      with ([Background j; Background j]
              ++ concat (replicate k [Background j; Background j])).
    rewrite run_app, (playback_pass j w Hj Hi Hr Hc).
    destruct (IH (post_to_main_thread update_particles_method w) Hj Hi Hr Hc)
      as (H1 & H2 & H3 & H4 & H5).
    rewrite H1, H2, H3, H4, H5. simpl. by rewrite <- !app_assoc.
Qed.

Lemma playback_posts_without_waiting_witness :
  let w := run [Click Play; Background 0] two_particles_world in
  main_queue (run (concat (replicate 3 [Background 0; Background 0])) w)
  = [update_particles_method; update_particles_method; update_particles_method].
Proof.
  destruct (playback_posts_without_waiting
              (run [Click Play; Background 0] two_particles_world) 0 3
              eq_refl eq_refl ltac:(vm_compute; reflexivity)
              ltac:(vm_compute; reflexivity)) as (H & _).
  exact H.
Defined.

Lemma background_run_view j w pc :
  threads w !! j = Some (run_trajectory pc) ->
  let w' := step (Background j) w in
  let pc1 := fst (run_step pc w) in
  let w1 := snd (run_step pc w) in
  threads w' = <[j := run_trajectory pc1]> (threads w)
  /\ threads w' !! j = Some (run_trajectory pc1)
  /\ self w' = self w1 /\ posted w' = posted w1 /\ main_queue w' = main_queue w1
  /\ scene w' = scene w /\ disk w' = disk w /\ raised w' = raised w.
Proof.
  intros Hj w' pc1 w1. unfold w'. rewrite (background_run_thread j w pc Hj).
  fold pc1 w1.
  assert (Hw1 : threads w1 = threads w /\ scene w1 = scene w /\ disk w1 = disk w
                /\ raised w1 = raised w).
  { unfold w1, run_step. destruct pc; simpl; repeat case_match; done. }
  destruct Hw1 as (Ht & Hs & Hd & Hx). simpl. rewrite Ht.
  repeat (split; [done|]). split; [|done].
  apply list_lookup_insert_eq. by apply lookup_lt_Some in Hj.
Qed.

Lemma playback_loop_ends (w : World) (j : nat) (pc : run_pc) :
  threads w !! j = Some (run_trajectory pc) ->
  pc = RunLoop \/ pc = RunCheck ->
  interrupt (self w) = 0 ->
  0 < frame_rate (self w) ->
  let w' := run [Background j; Background j; Background j] w in
  threads w' = <[j := run_trajectory RunDone]> (threads w)
  /\ self w' = self w
  /\ posted w'
     = match pc with
       | RunLoop =>
           if (counter (self w) <? number_of_steps (self w))%Z
           then posted w ++ [update_particles_method] else posted w
       | _ => posted w
       end.
Proof.
  intros Hj Hpc Hi Hr w'.
  change w' with (step (Background j) (step (Background j) (step (Background j) w))).
  clear w'.
  assert (Hsleep : sleep_frame (self w) = None).
  { unfold sleep_frame. destruct (Z.eqb_spec (frame_rate (self w)) 0); [lia|].
    destruct (Z.ltb_spec (frame_rate (self w)) 0); [lia|done]. }
  assert (Hself : set_interrupt 0 (self w) = self w).
  { rewrite <- Hi. by destruct (self w). }
  pose proof (background_run_view j w pc Hj) as V. cbv zeta in V. revert V.
  generalize (step (Background j) w). intros w1 (T1 & L1 & S1 & P1 & _).
  assert (exists pc1, threads w1 !! j = Some (run_trajectory pc1)
            /\ (pc1 = RunCheck \/ pc1 = RunReset)
            /\ threads w1 = <[j := run_trajectory pc1]> (threads w)
            /\ self w1 = self w
            /\ posted w1 = match pc with
                           | RunLoop =>
                               if (counter (self w) <? number_of_steps (self w))%Z
                               then posted w ++ [update_particles_method] else posted w
                           | _ => posted w
                           end) as (pc1 & L1' & Hpc1 & T1' & S1' & P1').
  { eexists. split; [exact L1|]. destruct Hpc as [-> | ->].
    - unfold run_step in *. rewrite Hsleep in *.
      destruct (counter (self w) <? number_of_steps (self w))%Z; simpl in *; auto.
    - unfold run_step in *. rewrite Hi in *. simpl in *. auto. }
  clear T1 L1 S1 P1.
  pose proof (background_run_view j w1 pc1 L1') as V. cbv zeta in V. revert V.
  generalize (step (Background j) w1). intros w2 (T2 & L2 & S2 & P2 & _).
  assert (exists pc2, threads w2 !! j = Some (run_trajectory pc2)
            /\ (pc2 = RunReset \/ pc2 = RunDone)
            /\ threads w2 = <[j := run_trajectory pc2]> (threads w)
            /\ self w2 = self w /\ posted w2 = posted w1) as (pc2 & L2' & Hpc2 & T2' & S2' & P2').
  { eexists. split; [exact L2|]. rewrite T1', list_insert_insert_eq in T2.
    destruct Hpc1 as [-> | ->]; unfold run_step in *; rewrite ?S1', ?Hi in *;
      simpl in *; rewrite ?Hself in *; rewrite ?S1' in *; auto. }
  clear T2 L2 S2 P2.
  pose proof (background_run_view j w2 pc2 L2') as V. cbv zeta in V. revert V.
  generalize (step (Background j) w2). intros w3 (T3 & L3 & S3 & P3 & _).
  rewrite T2', list_insert_insert_eq in T3.
  destruct Hpc2 as [-> | ->]; simpl in *; rewrite T3, S3, P3, ?S2', ?Hself, P2', P1';
    done.
Qed.

(** X15: when the flag reads 0, the frame rate is positive and a
    playback thread that is inside its loop takes its next three steps
    with no other event in between, it has ended after them.  It posts exactly one more update when it was
    waiting at the head of the loop with the counter below the number of
    steps, and none otherwise; it sets [interrupt] to 0 again at its end
    and changes nothing else of the visualizer. *)
Theorem pause_ends_playback (w : World) (j : nat) (pc : run_pc) :
  threads w !! j = Some (run_trajectory pc) ->
  pc = RunLoop \/ pc = RunCheck ->
  interrupt (self w) = 0 ->
  0 < frame_rate (self w) ->
  let w' := run [Background j; Background j; Background j] w in
  threads w' = <[j := run_trajectory RunDone]> (threads w)
  /\ self w' = self w
  /\ posted w'
     = match pc with
       | RunLoop =>
           if (counter (self w) <? number_of_steps (self w))%Z
           then posted w ++ [update_particles_method] else posted w
       | _ => posted w
       end.
Proof. exact (playback_loop_ends w j pc). Qed.

Lemma pause_ends_playback_witness :
  let w := run [Click Play; Background 0; Click Play] two_particles_world in
  let w' := run [Background 0; Background 0; Background 0] w in
  threads w' = [run_trajectory RunDone] /\ posted w' = [update_particles_method].
Proof.
  destruct (pause_ends_playback
              (run [Click Play; Background 0; Click Play] two_particles_world) 0 RunLoop
              eq_refl (or_introl eq_refl) eq_refl ltac:(vm_compute; reflexivity))
    as (H1 & _ & H2).
  split; [exact H1 | exact H2].
Defined.

Lemma insert_last {A} (l : list A) (x y : A) : <[length l := y]> (l ++ [x]) = l ++ [y].
Proof. rewrite insert_app_r_alt by lia. by rewrite Nat.sub_diag. Qed.

Lemma lookup_last {A} (l : list A) (x : A) : (l ++ [x]) !! length l = Some x.
Proof. by apply list_lookup_middle. Qed.

Lemma background_crashed j w e :
  threads w !! j = Some (run_trajectory (RunCrashed e)) -> step (Background j) w = w.
Proof.
  intros Hj. rewrite (background_run_thread j w _ Hj). simpl.
  rewrite list_insert_id by done. by destruct w.
Qed.

(** X16: a frame rate of zero, or a negative one whose inverse is a
    negative float, stops a playback thread at its first sleep, after
    the thread has set the flag.  From a stopped state with the counter
    below the number of steps, Play followed by the thread's first two
    steps leaves the thread crashed (division by zero for rate 0, the
    sleep's value error for a negative rate), nothing posted, and
    [interrupt] at 1 for good: no further step of that thread changes
    anything.  The next Play click therefore only clears the flag and
    starts no thread. *)
Theorem playback_crash_keeps_flag (w : World) :
  - float_underflow < frame_rate (self w) <= 0 ->
  counter (self w) < number_of_steps (self w) ->
  interrupt (self w) <> 1 ->
  let j := length (threads w) in
  let e := if (frame_rate (self w) =? 0)%Z then ZeroDivisionError else ValueError in
  let w' := run [Click Play; Background j; Background j] w in
  w' = set_threads (threads w ++ [run_trajectory (RunCrashed e)])
         (set_self (set_interrupt 1 (self w)) w)
  /\ (forall n, run (replicate n (Background j)) w' = w')
  /\ threads (step (Click Play) w') = threads w'
  /\ interrupt (self (step (Click Play) w')) = 0.
Proof.
  intros Hr Hc Hi j e w'.
  assert (Hw' : w' = set_threads (threads w ++ [run_trajectory (RunCrashed e)])
                       (set_self (set_interrupt 1 (self w)) w)).
  { unfold w'. rewrite !run_cons, (click_play_stopped w Hi).
    rewrite (background_run_thread j (start_thread (run_trajectory RunStart) w) RunStart)
      by apply lookup_last.
    simpl. unfold j. rewrite !insert_last, lookup_last.
    unfold thread_step, run_step, sleep_frame. simpl.
    destruct (Z.ltb_spec (counter (self w)) (number_of_steps (self w))); [|lia].
    unfold e. destruct (Z.eqb_spec (frame_rate (self w)) 0); simpl.
    - by rewrite insert_last.
    - destruct (Z.ltb_spec (frame_rate (self w)) 0); [|lia].
      destruct (Z.ltb_spec (- float_underflow) (frame_rate (self w))); [|lia]. simpl.
      by rewrite insert_last. }
  split; [exact Hw'|]. split; [|split].
  - intros n. induction n as [|n IH]; [done|].
    change (replicate (S n) (Background j)) with (Background j :: replicate n (Background j)).
    rewrite run_cons, (background_crashed j w' e); [exact IH|].
    rewrite Hw'. apply lookup_last.
  - rewrite Hw'. reflexivity.
  - rewrite Hw'. reflexivity.
Qed.

Lemma playback_crash_keeps_flag_witness :
  let w := run_visualization (mkVisualizer [blue; orange] 0 3 false "avi" 0 0 true true)
             empty_disk in
  let w' := run [Click Play; Background 0; Background 0] w in
  threads w' = [run_trajectory (RunCrashed ZeroDivisionError)]
  /\ interrupt (self w') = 1
  /\ threads (step (Click Play) w') = threads w'.
Proof.
  intros w.
  destruct (playback_crash_keeps_flag w
              ltac:(split; [vm_compute; reflexivity | vm_compute; discriminate])
              ltac:(vm_compute; reflexivity) ltac:(vm_compute; discriminate))
    as (H1 & _ & H2 & _).
  split; [exact (f_equal threads H1)|].
  split; [exact (f_equal (fun x => interrupt (self x)) H1) | exact H2].
Defined.

Lemma set_interrupt_same v : set_interrupt (interrupt v) v = v.
Proof. by destruct v. Qed.

(** X17: a playback thread reads the flag only at its interrupt check,
    after the sleep and the post.  If, while it waits at the head of its
    loop with the flag set, the user pauses and plays again and the new
    thread takes its first step, the flag reads 1 again before the old
    thread looks at it: the world is what it was plus a second playback
    thread at the head of its loop.  Both threads then keep running, and
    one pass of each posts two updates.  Export Scene, which clears the
    flag and calls [_continuous_trajectory] itself, restarts playback in
    the same way. *)
Theorem restart_before_check_doubles_playback (w : World) (i : nat) :
  threads w !! i = Some (run_trajectory RunLoop) ->
  interrupt (self w) = 1 ->
  0 < frame_rate (self w) ->
  counter (self w) < number_of_steps (self w) ->
  let j := length (threads w) in
  let w' := run [Click Play; Click Play; Background j] w in
  w' = set_threads (threads w ++ [run_trajectory RunLoop]) w
  /\ threads w' !! i = Some (run_trajectory RunLoop)
  /\ threads w' !! j = Some (run_trajectory RunLoop)
  /\ i <> j
  /\ active_run_loops w' = S (active_run_loops w)
  /\ main_queue (run [Background i; Background i; Background j; Background j] w')
     = main_queue w ++ [update_particles_method; update_particles_method]
  /\ (forall p0 rest,
      particles (self w) = p0 :: rest -> cached_at (counter (self w)) (p0 :: rest) ->
      let w2 := run [Click ExportScene; Background j] w in
      threads w2 = threads w ++ [run_trajectory RunLoop] /\ interrupt (self w2) = 1).
Proof.
  intros Hi Hint Hr Hc j w'.
  assert (Hij : i <> j). { apply lookup_lt_Some in Hi. unfold j. lia. }
  assert (Hw' : w' = set_threads (threads w ++ [run_trajectory RunLoop]) w).
  { unfold w', run, step, click, _continuous_trajectory. simpl.
    rewrite Hint. simpl. unfold j. rewrite lookup_last. simpl.
    rewrite insert_last. clear -Hint. open_world w. simpl in *. by subst. }
  assert (Li : threads w' !! i = Some (run_trajectory RunLoop)).
  { rewrite Hw'. simpl. rewrite lookup_app_l by (by apply lookup_lt_Some in Hi). done. }
  assert (Lj : threads w' !! j = Some (run_trajectory RunLoop)).
  { rewrite Hw'. simpl. apply lookup_last. }
  split; [exact Hw'|]. split; [exact Li|]. split; [exact Lj|]. split; [exact Hij|].
  split; [|split].
  - rewrite Hw'. unfold active_run_loops. simpl.
    rewrite List.filter_app, length_app. simpl. lia.
  - change [Background i; Background i; Background j; Background j]
      with ([Background i; Background i] ++ [Background j; Background j]).
    rewrite run_app.
    assert (Hs : self w' = self w) by (by rewrite Hw').
    rewrite (playback_pass i w' Li) by (by rewrite Hs).
    rewrite (playback_pass j (post_to_main_thread update_particles_method w') Lj)
      by (simpl; by rewrite Hs).
    rewrite Hw'. simpl. by rewrite <- app_assoc.
  - intros p0 rest Hps Hcache w2.
    assert (Ht : threads (step (Click ExportScene) w)
                 = threads w ++ [run_trajectory RunStart]).
    { unfold step, click, on_gui.
      destruct (_export_scene_threads w p0 rest Hps Hcache) as (Hn & _ & Ht).
      destruct (_export_scene w) as [x r]. simpl in *. subst r.
      by rewrite Ht, Hint. }
    change w2 with (step (Background j) (step (Click ExportScene) w)). clear w2.
    revert Ht. generalize (step (Click ExportScene) w). intros w1 Ht.
    destruct (background_run_view j w1 RunStart) as (T & _ & S & _).
    { rewrite Ht. apply lookup_last. }
    rewrite T, S, Ht. simpl. unfold j. by rewrite insert_last.
Qed.

Lemma restart_before_check_doubles_playback_witness :
  let w := run [Click Play; Background 0] two_particles_world in
  let w' := run [Click Play; Click Play; Background 1] w in
  threads w' = [run_trajectory RunLoop; run_trajectory RunLoop]
  /\ interrupt (self w') = 1.
Proof.
  intros w.
  destruct (restart_before_check_doubles_playback w 0 eq_refl eq_refl
              ltac:(vm_compute; reflexivity) ltac:(vm_compute; reflexivity))
    as (H1 & _).
  split; [exact (f_equal threads H1)|exact (f_equal (fun x => interrupt (self x)) H1)].
Defined.

(** ** The toggle and the threads *)





(** ** Export Scene during playback *)




(** ** The progress bar of the recording loop *)

Lemma recorder_progress_app_run ts pc :
  recorder_progress (ts ++ [run_trajectory pc]) = recorder_progress ts.
Proof. unfold recorder_progress. rewrite omap_app. simpl. apply app_nil_r. Qed.

Lemma recorder_progress_app_record ts pc p :
  recorder_progress (ts ++ [record_trajectory pc p]) = recorder_progress ts ++ [(pc, p)].
Proof. unfold recorder_progress. rewrite omap_app. reflexivity. Qed.

Lemma recorder_progress_insert_run ts (j : nat) pc pc1 :
  ts !! j = Some (run_trajectory pc) ->
  recorder_progress (<[j:=run_trajectory pc1]> ts) = recorder_progress ts.
Proof.
  revert j; induction ts as [|a ts IH]; intros [|j] H; simplify_eq/=; [done|].
  unfold recorder_progress in *. simpl. by rewrite (IH j).
Qed.

Lemma recorder_progress_nil_lookup ts (j : nat) pc p :
  recorder_progress ts = [] -> ts !! j = Some (record_trajectory pc p) -> False.
Proof.
  unfold recorder_progress.
  revert j; induction ts as [|a ts IH]; intros [|j] Hr H; simplify_eq/=.
  destruct a; simplify_eq/=. by apply (IH j).
Qed.

Lemma recorder_progress_insert_record ts (j : nat) pc p x pc1 p1 :
  ts !! j = Some (record_trajectory pc p) -> recorder_progress ts = [x] ->
  x = (pc, p) /\ recorder_progress (<[j:=record_trajectory pc1 p1]> ts) = [(pc1, p1)].
Proof.
  revert j; induction ts as [|a ts IH]; intros [|j] H Hr; simplify_eq/=.
  - unfold recorder_progress in *. simpl in *. split; congruence.
  - unfold recorder_progress in *. simpl in *. destruct a as [rpc|rpc rp]; simpl in *.
    + by apply (IH j).
    + exfalso. eapply (recorder_progress_nil_lookup ts j); [|exact H].
      unfold recorder_progress. congruence.
Qed.

Lemma recorder_progress_none ts :
  length (List.filter is_recording ts) = 0%nat -> recorder_progress ts = [].
Proof.
  unfold recorder_progress.
  induction ts as [|[pc|pc p] ts IH]; simpl; intros H; [done| |done].
  by apply IH.
Qed.

Lemma progress_inv_ext n0 w w' :
  recorder_progress (threads w') = recorder_progress (threads w) ->
  saves w' = saves w ->
  number_of_steps (self w') = number_of_steps (self w) ->
  progress_inv n0 w -> progress_inv n0 w'.
Proof.
  unfold progress_inv, frames_wanted. intros -> -> ->. done.
Qed.

Lemma click_recorder_progress a w :
  a <> ExportVideo ->
  recorder_progress (threads (step (Click a) w)) = recorder_progress (threads w).
Proof.
  intros Ha. open_world w; destruct a; try done;
    unfold step, click, on_gui, _update_particles, _draw_particles, _export_scene,
      _continuous_trajectory, _pause_run, start_thread, _take_screenshot, write_cwd;
    crush; apply recorder_progress_app_run.
Qed.

Lemma background_record_thread j w pc p :
  threads w !! j = Some (record_trajectory pc p) ->
  step (Background j) w
  = set_threads (<[j := record_trajectory (fst (fst (record_step pc p w)))
                          (snd (fst (record_step pc p w)))]>
                   (threads (snd (record_step pc p w)))) (snd (record_step pc p w)).
Proof.
  intros H. unfold step. rewrite H. unfold thread_step.
  by destruct (record_step pc p w) as [[pc1 p1] w1].
Qed.

Lemma record_step_saves pc p w :
  let pc1 := fst (fst (record_step pc p w)) in
  let p1 := snd (fst (record_step pc p w)) in
  let w1 := snd (record_step pc p w) in
  threads w1 = threads w
  /\ number_of_steps (self w1) = number_of_steps (self w)
  /\ match pc with
     | RecStart =>
         pc1 = RecCapture /\ p1 = mkProgress 0 (number_of_steps (self w)) false
         /\ saves w1 = saves w
     | RecCapture =>
         (saves w1 = saves w /\ p1 = p
          /\ match pc1 with
             | RecMovie => finished p = true
             | RecAdvance | RecCrashed _ => True
             | _ => False
             end)
         \/ (saves w1 = S (saves w) /\ p1 = progress_update p /\ finished p = false
             /\ pc1 = RecAdvance)
     | RecAdvance => pc1 = RecCapture /\ p1 = p /\ saves w1 = saves w
     | RecMovie =>
         p1 = p /\ saves w1 = saves w
         /\ match pc1 with RecDone | RecCrashed _ => True | _ => False end
     | RecDone | RecCrashed _ => pc1 = pc /\ p1 = p /\ saves w1 = saves w
     end.
Proof.
  unfold saves. destruct pc; unfold record_step; simpl.
  - done.
  - destruct (finished p) eqn:Hf; simpl.
    { split; [done|]. split; [done|]. by left. }
    destruct (sleep_frame (self w)); simpl.
    { split; [done|]. split; [done|]. by left. }
    destruct (save_thread_finished (self w) && update_thread_finished (self w)); simpl.
    + split; [done|]. split; [done|]. right.
      rewrite count_occ_app. simpl. split; [lia|done].
    + split; [done|]. split; [done|]. by left.
  - destruct (update_thread_finished (self w)); simpl; [|done].
    rewrite count_occ_app. simpl. split; [done|]. split; [done|].
    split; [done|]. split; [done|lia].
  - destruct (_create_movie (self w) (disk w)) as [d [e|]]; simpl; done.
  - done.
  - done.
Qed.

Lemma progress_click n0 a w :
  a <> ExportVideo -> progress_inv n0 w -> progress_inv n0 (step (Click a) w).
Proof.
  intros Ha. apply progress_inv_ext.
  - by apply click_recorder_progress.
  - unfold saves. by rewrite click_posted.
  - apply step_config.
Qed.

Lemma progress_main n0 w : progress_inv n0 w -> progress_inv n0 (step Main w).
Proof.
  destruct (main_view w) as (Ht & Hp & _). apply progress_inv_ext.
  - by rewrite Ht.
  - unfold saves. by rewrite Hp.
  - apply step_config.
Qed.

Lemma progress_update_spec p k :
  completed p = k -> 0 <= k -> finished p = false ->
  k < Z.max 1 (total p) ->
  completed (progress_update p) = k + 1
  /\ total (progress_update p) = total p
  /\ (if finished (progress_update p) then k + 1 = Z.max 1 (total p)
      else k + 1 < Z.max 1 (total p)).
Proof.
  intros Hc Hk Hf Hlt. unfold progress_update. simpl. rewrite Hc, Hf. simpl.
  split; [done|]. split; [done|].
  destruct (Z.leb_spec (total p) (k + 1)); lia.
Qed.

Lemma progress_background n0 j w :
  progress_inv n0 w -> progress_inv n0 (step (Background j) w).
Proof.
  intros Hinv.
  destruct (threads w !! j) as [[pc|pc p]|] eqn:Hj.
  - pose proof (background_view j w) as Hv. rewrite Hj in Hv. revert Hv.
    generalize (step_config (Background j) w).
    generalize (step (Background j) w) as w'. intros w' (_ & HS & _) Hv.
    destruct Hv as ([pc1 Ht] & _ & _ & Hq).
    revert Hinv. apply progress_inv_ext; [|unfold saves|done].
    + rewrite Ht. by apply (recorder_progress_insert_run _ _ pc).
    + destruct Hq as [[_ ->]|[_ ->]]; [done|].
      rewrite count_occ_app. simpl. lia.
  - assert (Hv : threads (step (Background j) w)
                 = <[j := record_trajectory (fst (fst (record_step pc p w)))
                             (snd (fst (record_step pc p w)))]> (threads w)
                 /\ saves (step (Background j) w) = saves (snd (record_step pc p w))).
    { rewrite (background_record_thread j w pc p Hj).
      destruct (record_step_saves pc p w) as (Ht & _). simpl. by rewrite Ht. }
    destruct (record_step_saves pc p w) as (_ & _ & Hstep).
    revert Hv Hstep. generalize (step_config (Background j) w).
    generalize (step (Background j) w) as w'.
    generalize (fst (fst (record_step pc p w))) as pc1.
    generalize (snd (fst (record_step pc p w))) as p1.
    generalize (snd (record_step pc p w)) as w1.
    intros w1 p1 pc1 w' (_ & HS & _) [Ht Hs'] Hstep.
    unfold progress_inv in *. rewrite Ht.
    destruct (recorder_progress (threads w)) as [|x [|]] eqn:Hr.
    + destruct (recorder_progress_nil_lookup _ _ _ _ Hr Hj).
    + destruct (recorder_progress_insert_record _ _ _ _ _ pc1 p1 Hj Hr) as [-> ->].
      unfold frames_wanted in *. rewrite HS, Hs'.
      destruct pc.
      * destruct Hstep as (-> & -> & ->). simpl. rewrite Hinv.
        rewrite Nat.sub_diag. simpl. lia.
      * destruct Hinv as (Htot & Hle & Hc & Hfin & _).
        destruct Hstep as [(-> & -> & Hpc1)|(Hs & -> & Hf & ->)].
        { destruct pc1; done. }
        rewrite Hf in Hfin. rewrite Hs.
        destruct (progress_update_spec p _ Hc ltac:(lia) Hf) as (Hc1 & Ht1 & Hf1).
        { by rewrite Htot. }
        rewrite Ht1, Hc1, Htot in *.
        replace (Z.of_nat (S (saves w) - n0)) with (Z.of_nat (saves w - n0) + 1) by lia.
        split; [done|]. split; [lia|]. done.
      * destruct Hinv as (Htot & Hle & Hc & Hfin & _).
        destruct Hstep as (-> & -> & ->). done.
      * destruct Hinv as (Htot & Hle & Hc & Hfin & Hf).
        destruct Hstep as (-> & -> & Hpc1). destruct pc1; done.
      * destruct Hstep as (-> & -> & ->). done.
      * destruct Hstep as (-> & -> & ->). done.
    + destruct x as [[] ?]; done.
  - unfold step. by rewrite Hj.
Qed.

Lemma progress_step n0 e w :
  e <> Click ExportVideo -> progress_inv n0 w -> progress_inv n0 (step e w).
Proof.
  destruct e as [a| |j]; intros He.
  - apply progress_click. congruence.
  - apply progress_main.
  - apply progress_background.
Qed.

Lemma progress_run n0 sched w :
  Forall (fun e => e <> Click ExportVideo) sched ->
  progress_inv n0 w -> progress_inv n0 (run sched w).
Proof.
  intros H; revert w; induction H as [|e s He _ IH]; intros w Hw; [done|].
  rewrite run_cons. apply IH. by apply progress_step.
Qed.

Lemma progress_export w :
  recordings w = 0%nat -> progress_inv (saves w) (step (Click ExportVideo) w).
Proof.
  intros Hr. apply recorder_progress_none in Hr.
  unfold progress_inv, saves. unfold step, click, _export_video. simpl.
  destruct (temp_video (disk w)); simpl.
  - by rewrite Hr.
  - by rewrite recorder_progress_app_record, Hr.
Qed.

(** X18: the progress bar of the recording loop counts the captures.
    During one recording (Export Video from a state without recording
    thread, then any schedule without a second Export Video) the number
    of [save_callable]s submitted never exceeds the number of steps (one,
    when that number is not positive); once the thread has set up its bar,
    the bar's completed count is the number of captures submitted, and
    the bar is finished exactly when that number has been reached.  So
    whenever the thread has left its loop, it has submitted exactly that
    many captures, however the threads were interleaved. *)
Theorem recording_submits_wanted_frames (w0 : World) (sched : list event) :
  recordings w0 = 0%nat ->
  Forall (fun e => e <> Click ExportVideo) sched ->
  let w := run sched (step (Click ExportVideo) w0) in
  let k := Z.of_nat (saves w - saves w0) in
  (saves w0 <= saves w)%nat
  /\ k <= frames_wanted (self w0)
  /\ (forall j pc p,
      threads w !! j = Some (record_trajectory pc p) ->
      (pc <> RecStart ->
       completed p = k /\ total p = number_of_steps (self w0)
       /\ (finished p = true <-> k = frames_wanted (self w0)))
      /\ (pc = RecMovie \/ pc = RecDone -> k = frames_wanted (self w0))).
Proof.
  intros Hr Hsched w k.
  assert (Hinv : progress_inv (saves w0) w).
  { apply progress_run; [exact Hsched|]. by apply progress_export. }
  assert (HS : number_of_steps (self w) = number_of_steps (self w0)).
  { unfold w. destruct (run_config sched (step (Click ExportVideo) w0)) as (_ & -> & _).
    apply step_config. }
  unfold progress_inv, frames_wanted in *. rewrite HS in Hinv. fold k in Hinv.
  destruct (recorder_progress (threads w)) as [|[pc0 p0] [|]] eqn:Hrec.
  - assert (k = 0) by (unfold k; lia).
    split; [lia|]. split; [lia|]. intros j pc p Hj.
    destruct (recorder_progress_nil_lookup _ _ _ _ Hrec Hj).
  - assert (Hall : (saves w0 <= saves w)%nat /\ k <= Z.max 1 (number_of_steps (self w0))).
    { destruct pc0; try (unfold k; lia);
        destruct Hinv as (_ & Hle & _ & Hfin & _); destruct (finished p0); lia. }
    destruct Hall as [H1 H2]. split; [done|]. split; [done|].
    intros j pc p Hj.
    destruct (recorder_progress_insert_record _ _ _ _ _ pc p Hj Hrec) as [[= <- <-] _].
    split.
    + intros Hpc. destruct pc0; [done|..];
        destruct Hinv as (Htot & _ & Hc & Hfin & _);
        (split; [done|]); (split; [done|]); destruct (finished p0); split; (done || lia).
    + intros [-> | ->]; destruct Hinv as (_ & _ & _ & Hfin & Hf); by rewrite Hf in Hfin.
  - destruct pc0; done.
Qed.

Lemma recording_submits_wanted_frames_witness :
  let w := run (lockstep 0 3) (step (Click ExportVideo) two_particles_world) in
  Z.of_nat (saves w - saves two_particles_world) = 3.
Proof.
  destruct (recording_submits_wanted_frames two_particles_world (lockstep 0 3) eq_refl
              ltac:(vm_compute; repeat constructor; discriminate))
    as (_ & _ & H).
  destruct (H 0%nat RecDone (mkProgress 3 3 true) ltac:(vm_compute; reflexivity))
    as [_ H2].
  exact (H2 (or_intror eq_refl)).
Defined.

(** ** The frames of a recording *)

























(** ** The first frame *)

Lemma draw_loop_scene_initial c ps sc :
  cached_at c ps -> NoDup (map name ps) ->
  (forall p, p ∈ ps -> fst (draw_loop true c ps sc) !! name p = mesh_dict p !! c)
  /\ (forall n, n ∉ map name ps -> fst (draw_loop true c ps sc) !! n = sc !! n).
Proof.
  intros Hc. revert sc. induction Hc as [|p0 ps [m Hm] _ IH]; intros sc Hnd.
  { split; [|done]. intros p Hp. by apply elem_of_nil in Hp. }
  simpl in Hnd. apply NoDup_cons in Hnd as [Hnot Hnd].
  simpl. unfold draw_particle. rewrite Hm.
  destruct (IH (<[name p0:=m]> sc) Hnd) as [IH1 IH2].
  split.
  - intros p [->|Hp]%elem_of_cons; [|by apply IH1].
    rewrite IH2 by done. by rewrite lookup_insert_eq.
  - intros n Hn. apply not_elem_of_cons in Hn as [Hn0 Hn].
    rewrite IH2 by done. by rewrite lookup_insert_ne.
Qed.

(** X19: [run_visualization], up to the start of the event loop.  With
    distinct particle names and a cached mesh of the current step (0 for
    a fresh object) for every particle, the window shows exactly the
    particles, each under its name with its mesh of that step, and
    nothing else; [interrupt] is 0, nothing is queued, no thread runs, no
    redraw was requested, nothing was raised and the disk is untouched. *)
Theorem run_visualization_shows_first_frame (v : Visualizer) (d : FileSystem) :
  NoDup (map name (particles v)) ->
  cached_at (counter v) (particles v) ->
  let w := run_visualization v d in
  (forall p, p ∈ particles v -> scene w !! name p = mesh_dict p !! counter v)
  /\ (forall n, n ∉ map name (particles v) -> scene w !! n = None)
  /\ self w = set_interrupt 0 v
  /\ raised w = [] /\ threads w = [] /\ main_queue w = [] /\ posted w = []
  /\ redraws w = 0%nat /\ disk w = d.
Proof.
  intros Hnd Hc w. unfold w, run_visualization, _draw_particles. simpl.
  pose proof (draw_loop_cached true _ _ (∅ : gmap string mesh) Hc) as Hr.
  destruct (draw_loop_scene_initial _ _ (∅ : gmap string mesh) Hc Hnd) as [H1 H2].
  destruct (draw_loop true (counter v) (particles v) ∅) as [sc r].
  simpl in *. subst r. simpl. split; [exact H1|]. split; [|done].
  intros n Hn. by rewrite H2.
Qed.

Lemma run_visualization_shows_first_frame_witness :
  scene two_particles_world !! "Blue" = Some [1]
  /\ scene two_particles_world !! "Orange" = Some [10]
  /\ scene two_particles_world !! "Green" = None.
Proof.
  destruct (run_visualization_shows_first_frame two_particles empty_disk
              ltac:(apply (bool_decide_unpack _); vm_compute; reflexivity)
              ltac:(repeat constructor; eexists; vm_compute; reflexivity))
    as (H1 & H2 & _).
  split; [apply (H1 blue); set_solver|].
  split; [apply (H1 orange); set_solver|].
  apply H2. apply (bool_decide_unpack _). vm_compute. reflexivity.
Defined.

(** ** Screenshots *)

Lemma screenshot_name_inj : Inj (=) (=) screenshot_name.
Proof.
  intros a b H. unfold screenshot_name in H. simplify_eq/=.
  apply string_app_inv_tail in H. by apply (inj pretty).
Qed.

Lemma screenshot_not_ply c c' : ply_name c' <> screenshot_name c.
Proof. unfold ply_name, screenshot_name. intros H. by simplify_eq/=. Qed.

Lemma screenshot_not_video c v : video_name v <> screenshot_name c.
Proof. unfold video_name, screenshot_name. intros H. by simplify_eq/=. Qed.

Lemma _create_movie_other_file v d n :
  n <> video_name v -> cwd (fst (_create_movie v d)) !! n = cwd d !! n.
Proof.
  intros Hn. unfold _create_movie.
  destruct (sorted (glob_png d)) as [e|[|first rest]]; simpl; [done..|].
  destruct (video_writer d (video_format v) (frame_rate v)); [|done].
  by rewrite lookup_insert_ne.
Qed.

Lemma step_screenshot_file e w c :
  e <> Click Screenshot ->
  cwd (disk (step e w)) !! screenshot_name c = cwd (disk w) !! screenshot_name c.
Proof.
  intros He. destruct e as [a| |j].
  - destruct a; try done.
    + unfold step, click, on_gui, _update_particles, _draw_particles. crush.
    + unfold step, click, _continuous_trajectory, _pause_run, start_thread. crush.
    + unfold step, click, on_gui, _export_scene, _continuous_trajectory, _pause_run,
        start_thread, write_cwd. crush;
        rewrite ?lookup_insert_ne by apply screenshot_not_ply; done.
    + unfold step, click, on_gui, _export_video, start_thread. crush.
  - unfold step, on_gui, call, export_frame, _update_particles, _draw_particles. crush.
  - destruct (threads w !! j) as [[pc|pc p]|] eqn:Hj.
    + by destruct (background_run_view j w pc Hj) as (_ & _ & _ & _ & _ & _ & -> & _).
    + rewrite (background_record_thread j w pc p Hj). simpl.
      destruct pc; unfold record_step; simpl; repeat case_match; simplify_eq/=; try done.
      all: match goal with H : _create_movie ?v ?d = _ |- _ =>
             pose proof (_create_movie_other_file v d (screenshot_name c)
                           (fun E => screenshot_not_video c v (eq_sym E))) as HH;
             rewrite H in HH; exact HH end.
    + unfold step. by rewrite Hj.
Qed.

(** X20: the Screenshot action writes the image of the window to
    [screenshot_<counter>.png] and changes nothing else: the visualizer,
    the window, the queue, the threads and [temp_video] are as before.
    Different counters give different file names.  No other action,
    callable or thread step writes a file of that name (Export Scene
    writes [My_mesh_...], the assembler [ZnVis-Video...]), so after any
    schedule without another Screenshot the file still holds that
    image. *)
Theorem screenshot_is_kept (w : World) (sched : list event) :
  Forall (fun e => e <> Click Screenshot) sched ->
  let c := counter (self w) in
  let w1 := step (Click Screenshot) w in
  cwd (disk w1) = <[screenshot_name c := Png (scene w)]> (cwd (disk w))
  /\ w1 = set_disk (disk w1) w
  /\ temp_video (disk w1) = temp_video (disk w)
  /\ (forall c', screenshot_name c' = screenshot_name c -> c' = c)
  /\ cwd (disk (run sched w1)) !! screenshot_name c = Some (Png (scene w)).
Proof.
  intros Hsched c w1.
  split; [done|]. split; [done|]. split; [done|].
  split; [intros c' H; by apply screenshot_name_inj in H|].
  assert (Hrun : forall s x, Forall (fun e => e <> Click Screenshot) s ->
            cwd (disk (run s x)) !! screenshot_name c = cwd (disk x) !! screenshot_name c).
  { intros s x Hs. revert x. induction Hs as [|e s He _ IH]; intros x; [done|].
    rewrite run_cons, IH. by apply step_screenshot_file. }
  rewrite (Hrun _ _ Hsched). unfold w1, step, click, _take_screenshot, write_cwd.
  simpl. apply lookup_insert_eq.
Qed.

Lemma screenshot_is_kept_witness :
  let w1 := step (Click Screenshot) two_particles_world in
  cwd (disk (run [Click Step; Click ExportScene; Click Play; Background 0] w1))
    !! "screenshot_0.png"
  = Some (Png (scene two_particles_world)).
Proof.
  destruct (screenshot_is_kept two_particles_world
              [Click Step; Click ExportScene; Click Play; Background 0]
              ltac:(repeat constructor; discriminate))
    as (_ & _ & _ & _ & H).
  exact H.
Defined.

(** ** A recording whose update failed *)

Lemma click_view a w :
  let w' := step (Click a) w in
  main_queue w' = main_queue w
  /\ save_thread_finished (self w') = save_thread_finished (self w)
  /\ update_thread_finished (self w') = update_thread_finished (self w)
  /\ (is_Some (temp_video (disk w)) ->
      temp_video (disk w') = temp_video (disk w)
      /\ (threads w' = threads w \/ exists pc, threads w' = threads w ++ [run_trajectory pc]))
  /\ (forall n, (forall c, ply_name c <> n) -> (forall c, screenshot_name c <> n) ->
      cwd (disk w') !! n = cwd (disk w) !! n).
Proof.
  open_world w. destruct a;
    unfold step, click, on_gui, _update_particles, _draw_particles, _export_scene,
      _export_video, _continuous_trajectory, _pause_run, start_thread,
      _take_screenshot, write_cwd; crush;
    repeat split; try done; try (intros [? ?]; done); eauto;
    try (intros n0 G1 G2; rewrite lookup_insert_ne; [done|first [apply G1|apply G2]]).
Qed.

Lemma main_disk w :
  cwd (disk (step Main w)) = cwd (disk w)
  /\ (is_Some (temp_video (disk w)) -> is_Some (temp_video (disk (step Main w)))).
Proof.
  open_world w. destruct q as [|f q]; [done|].
  destruct f; unfold step, on_gui, call, export_frame, _update_particles, _draw_particles;
    crush.
Qed.

Lemma single_recorder ts (i j : nat) x pc p pc' p' :
  recorder ts = [x] ->
  ts !! i = Some (record_trajectory pc p) ->
  ts !! j = Some (record_trajectory pc' p') ->
  i = j /\ pc = pc' /\ p = p'.
Proof.
  unfold recorder.
  revert i j; induction ts as [|a ts IH]; intros i j Hr Hi Hj; [done|].
  destruct a as [rpc|rpc rp]; simpl in Hr.
  - destruct i as [|i]; [done|]. destruct j as [|j]; [done|]. simpl in *.
    destruct (IH i j Hr Hi Hj) as (-> & ? & ?). done.
  - injection Hr as _ Hr.
    destruct i as [|i]; destruct j as [|j]; simpl in *.
    + by simplify_eq.
    + destruct (recorder_nil_lookup ts j pc' p' Hr Hj).
    + destruct (recorder_nil_lookup ts i pc p Hr Hi).
    + destruct (recorder_nil_lookup ts i pc p Hr Hi).
Qed.

Lemma stalled_record_step pc p w :
  pc = RecCapture \/ pc = RecAdvance ->
  finished p = false -> 0 < frame_rate (self w) ->
  update_thread_finished (self w) = false ->
  record_step pc p w
  = (match pc with RecCapture => RecAdvance | _ => RecCapture end, p, w).
Proof.
  intros Hpc Hf Hr Hu. destruct Hpc as [-> | ->]; unfold record_step.
  - rewrite Hf. unfold sleep_frame.
    destruct (Z.eqb_spec (frame_rate (self w)) 0); [lia|].
    destruct (Z.ltb_spec (frame_rate (self w)) 0); [lia|].
    by rewrite Hu, andb_false_r.
  - by rewrite Hu.
Qed.

Lemma step_stalled e j p w :
  stalled j p w ->
  stalled j p (step e w)
  /\ saves (step e w) = saves w
  /\ (forall n, (forall c, ply_name c <> n) -> (forall c, screenshot_name c <> n) ->
      cwd (disk (step e w)) !! n = cwd (disk w) !! n).
Proof.
  intros (Hj & [pc0 Hrec] & Hf & Hr & Hu & Ho & Hd).
  assert (Hj' : exists pc, threads w !! j = Some (record_trajectory pc p)
                           /\ (pc = RecCapture \/ pc = RecAdvance)).
  { destruct Hj; eauto. }
  destruct Hj' as (pc & Hlook & Hpc). clear Hj.
  destruct (step_config e w) as (Hfr & _).
  destruct e as [a| |i].
  - destruct (click_view a w) as (Hq & _ & Hu' & Hdisk & Hcwd).
    destruct (Hdisk Hd) as [Htv Hts]. revert Hq Hu' Htv Hts Hcwd Hfr.
    generalize (click_posted a w). generalize (step (Click a) w) as w'.
    intros w' Hp Hq Hu' Htv Hts Hcwd Hfr.
    split; [|split; [unfold saves; by rewrite Hp|exact Hcwd]].
    unfold stalled, outstanding. rewrite Hq, Hu', Htv, Hfr.
    destruct Hts as [-> | [rpc ->]].
    + repeat split; eauto. destruct Hpc as [-> | ->]; auto.
    + rewrite recorder_app_run, lookup_app_l by (by apply lookup_lt_Some in Hlook).
      repeat split; eauto. destruct Hpc as [-> | ->]; auto.
  - destruct (main_view w) as (Ht & Hp & Hv). destruct (main_disk w) as [Hcwd Htv].
    revert Ht Hp Hv Hcwd Htv Hfr. generalize (step Main w) as w'.
    intros w' Ht Hp Hv Hcwd Htv Hfr.
    split; [|split; [unfold saves; by rewrite Hp|intros; by rewrite Hcwd]].
    unfold stalled, outstanding in *. rewrite Ht, Hfr.
    assert (Hrest : update_thread_finished (self w') = false
                    /\ count_occ callable_eq_dec (main_queue w') update_callable = 0%nat).
    { destruct (main_queue w) as [|f q] eqn:E; [subst w'; by rewrite E|].
      destruct Hv as [-> Hflags]. simpl in Ho.
      destruct f; simpl in Ho; try done; destruct Hflags as [_ ->]; by split. }
    destruct Hrest as [Hu' Ho'].
    repeat split; eauto. destruct Hpc as [-> | ->]; auto.
  - destruct (threads w !! i) as [[rpc|rpc rp]|] eqn:Hi.
    + pose proof (background_view i w) as Hv. rewrite Hi in Hv.
      destruct (background_run_view i w rpc Hi) as (_ & _ & _ & _ & _ & _ & Hdisk & _).
      revert Hv Hdisk Hfr. generalize (step (Background i) w) as w'.
      intros w' ([rpc1 Ht] & _ & Hu' & Hq) Hdisk Hfr.
      assert (Hij : i <> j) by (intros ->; congruence).
      assert (Hqp : count_occ callable_eq_dec (main_queue w') update_callable
                    = count_occ callable_eq_dec (main_queue w) update_callable
                    /\ saves w' = saves w).
      { unfold saves. destruct Hq as [[-> ->]|[-> ->]]; [done|].
        rewrite !count_occ_app. simpl. lia. }
      destruct Hqp as [Hq1 Hq2].
      split; [|split; [done|intros; by rewrite Hdisk]].
      unfold stalled, outstanding in *.
      rewrite Ht, Hu', Hq1, Hdisk, Hfr, list_lookup_insert_ne by done.
      rewrite (recorder_insert_run _ _ _ _ Hi).
      repeat split; eauto. destruct Hpc as [-> | ->]; auto.
    + destruct (single_recorder _ _ _ _ _ _ _ _ Hrec Hi Hlook) as (-> & -> & ->).
      rewrite (background_record_thread j w pc p Hlook).
      rewrite (stalled_record_step pc p w Hpc Hf Hr Hu). simpl.
      split; [|split; [done|done]].
      unfold stalled, outstanding. simpl.
      rewrite list_lookup_insert_eq by (by apply lookup_lt_Some in Hlook).
      destruct (recorder_insert_record _ _ _ _ _
                  (match pc with RecCapture => RecAdvance | _ => RecCapture end) p
                  Hlook Hrec) as [_ ->].
      repeat split; eauto. destruct Hpc as [-> | ->]; auto.
    + unfold step. rewrite Hi.
      split; [|done]. unfold stalled. repeat split; eauto.
      destruct Hpc as [-> | ->]; auto.
Qed.

Lemma run_stalled sched j p w :
  stalled j p w ->
  stalled j p (run sched w)
  /\ saves (run sched w) = saves w
  /\ (forall n, (forall c, ply_name c <> n) -> (forall c, screenshot_name c <> n) ->
      cwd (disk (run sched w)) !! n = cwd (disk w) !! n).
Proof.
  revert w. induction sched as [|e s IH]; intros w Hw; [done|].
  rewrite run_cons. destruct (step_stalled e j p w Hw) as (H1 & H2 & H3).
  destruct (IH _ H1) as (G1 & G2 & G3).
  split; [done|]. split; [congruence|]. intros n Hp Hs. by rewrite G3, H3.
Qed.

Lemma draw_loop_not_cached c ps sc :
  ~ cached_at c ps -> snd (draw_loop false c ps sc) = Some IndexError.
Proof.
  revert sc. induction ps as [|p ps IH]; intros sc Hn.
  - destruct Hn. constructor.
  - simpl. unfold draw_particle. destruct (mesh_dict p !! c) as [m|] eqn:Hm; [|done].
    apply IH. intros Hc. apply Hn. constructor; [by eexists|done].
Qed.

(** X21: a failed update hangs the recording.  When the
    [update_callable] that the recording loop has posted runs while a
    particle has no cached mesh for the next step, it raises the index
    error before it can set [update_thread_finished].  The loop posts a
    capture only when both flags read true and an update only when that
    flag reads true, so from then on, under every schedule, the recording
    thread stays inside its loop with its progress bar where it was: no
    further capture is submitted, the video file is never written and
    [temp_video] is never removed. *)
Theorem failed_update_stalls_recording
    (w : World) (j : nat) (pc : rec_pc) (p : Progress) (q : list callable)
    (sched : list event) :
  threads w !! j = Some (record_trajectory pc p) ->
  pc = RecCapture \/ pc = RecAdvance ->
  recorder (threads w) = [pc] ->
  finished p = false ->
  0 < frame_rate (self w) ->
  is_Some (temp_video (disk w)) ->
  main_queue w = update_callable :: q ->
  count_occ callable_eq_dec q update_callable = 0%nat ->
  update_thread_finished (self w) = false ->
  ~ cached_at (next_counter (self w)) (particles (self w)) ->
  let w1 := step Main w in
  let w' := run sched w1 in
  raised w1 = IndexError :: raised w
  /\ (threads w' !! j = Some (record_trajectory RecCapture p)
      \/ threads w' !! j = Some (record_trajectory RecAdvance p))
  /\ update_thread_finished (self w') = false
  /\ saves w' = saves w
  /\ cwd (disk w') !! video_name (self w) = cwd (disk w) !! video_name (self w)
  /\ is_Some (temp_video (disk w')).
Proof.
  intros Hj Hpc Hrec Hf Hr Hd Hq Hcount Hu Hmiss w1 w'.
  assert (Hw1 : w1 = set_raised (IndexError :: raised w)
                       (set_scene (scene w1)
                          (set_self (set_counter (next_counter (self w)) (self w))
                             (set_main_queue q w)))).
  { unfold w1, step. rewrite Hq. unfold call.
    rewrite _update_particles_None. cbv zeta.
    pose proof (draw_loop_not_cached (next_counter (self w)) (particles (self w))
                  (scene w) Hmiss) as He. simpl in *.
    destruct (draw_loop false (next_counter (self w)) (particles (self w)) (scene w))
      as [sc r]. simpl in He. subst r. reflexivity. }
  assert (Hst : stalled j p w1).
  { rewrite Hw1. unfold stalled, outstanding. simpl. rewrite Hrec.
    repeat split; eauto. destruct Hpc as [-> | ->]; auto. }
  destruct (run_stalled sched j p w1 Hst) as (G1 & G2 & G3). fold w' in G1, G2, G3.
  destruct G1 as (T & _ & _ & _ & U & _ & D).
  split; [by rewrite Hw1|]. split; [exact T|]. split; [exact U|].
  split; [|split; [|exact D]].
  - rewrite G2. unfold saves. rewrite Hw1. reflexivity.
  - rewrite G3.
    + rewrite Hw1. reflexivity.
    + intros c E. unfold ply_name, video_name in E. by simplify_eq/=.
    + intros c E. unfold screenshot_name, video_name in E. by simplify_eq/=.
Qed.

Lemma failed_update_stalls_recording_witness :
  let short := mkParticle "Short" 1 {[0 := [7]]} in
  let w0 := run_visualization
              (mkVisualizer [blue; short; orange] 10 3 false "avi" 0 0 true true)
              empty_disk in
  let w := run [Click ExportVideo; Background 0; Background 0; Background 0; Main] w0 in
  let w' := run [Background 0; Background 0; Main; Click Play; Background 0]
              (step Main w) in
  raised (step Main w) = [IndexError]
  /\ saves w' = 1%nat
  /\ cwd (disk w') !! "ZnVis-Video.avi" = None.
Proof.
  intros short w0 w.
  destruct (failed_update_stalls_recording w 0 RecCapture (mkProgress 1 3 false) []
              [Background 0; Background 0; Main; Click Play; Background 0]
              ltac:(vm_compute; reflexivity) (or_introl eq_refl)
              ltac:(vm_compute; reflexivity) eq_refl
              ltac:(vm_compute; reflexivity)
              ltac:(vm_compute; eexists; reflexivity)
              ltac:(vm_compute; reflexivity) eq_refl
              ltac:(vm_compute; reflexivity)
              ltac:(intros H; inversion H as [|? ? _ H2]; inversion H2 as [|? ? [m Hm] _];
                    vm_compute in Hm; discriminate))
    as (H1 & _ & _ & H2 & H3 & _).
  split; [exact H1|]. split; [exact H2|exact H3].
Defined.
